(** * ratings.c: bounded-concurrency keyword search over a movie catalog

    A shallow embedding of [src/ratings.c] and the properties of its
    keyword filter, ranking, report and admission control.

    Conventions.
    - A C string is the list of its characters before the terminating NUL
      ([cstr]); a buffer [char b[N]] holds a string of at most [N - 1]
      characters.
    - [float] values are IEEE-754 binary32 numbers, as [spec_float]; the
      comparisons [<] and [>] of C are [SFltb], false on a NaN.
    - [int] values are [Z]; the indices and counts of the program stay
      within [MAX_MOVIES], so no arithmetic wraps.  The value of the
      semaphore, an [unsigned int], is a [nat].
    - libc and pthreads are not part of the repository.  [tolower] and
      [strstr] are written out; [qsort] is taken by the contract the C
      standard gives it; the calls on the semaphore, the mutex and the
      standard output are the instructions of an interleaving machine, in
      which each call is one atomic step, [sem_wait] returns only with a
      permit and [pthread_mutex_lock] only with the mutex. *)

From Stdlib Require Import ZArith Bool Ascii String List Lia Permutation Sorted.
From Stdlib Require Import Floats.SpecFloat DecimalString.
Import ListNotations.

Local Open Scope Z_scope.

(** ** C strings *)

Definition cstr := list ascii.

(** A string literal of the source. *)
Definition str (s : string) : cstr := list_ascii_of_string s.

Definition nl : ascii := "010"%char.
Definition dquote : ascii := "034"%char.

(** [tolower] in the "C" locale (the program never calls [setlocale]). *)
Definition tolower (c : ascii) : ascii :=
  let n := N_of_ascii c in
  if ((65 <=? n) && (n <=? 90))%N then ascii_of_N (n + 32) else c.

(** [strstr]: the suffix of the haystack at the first occurrence of the
    needle, [None] for a null pointer. *)
Fixpoint starts_with (needle hay : cstr) : bool :=
  match needle, hay with
  | [], _ => true
  | _ :: _, [] => false
  | a :: needle', b :: hay' => Ascii.eqb a b && starts_with needle' hay'
  end.

Fixpoint strstr (hay needle : cstr) : option cstr :=
  match hay with
  | [] => if starts_with needle [] then Some [] else None
  | _ :: hay' => if starts_with needle hay then Some hay else strstr hay' needle
  end.

(** ** Sizes *)

Definition MAX_TITLE_LEN : Z := 100.
Definition MAX_DIRECTOR_LEN : Z := 100.
Definition MAX_DATE_LEN : Z := 20.
Definition MAX_DESC_LEN : Z := 500.
Definition MAX_MOVIES : Z := 30.
Definition MAX_RESULTS : Z := 30.
Definition MAX_KEYWORD_LEN : Z := 64.

(** ** Utility: lowercase copy *)

(** The loop of [to_lower_copy], from index [i] with [src] the characters
    not yet read: it stops at the terminator or when [i + 1 < dst_sz]
    fails. *)
Fixpoint to_lower_copy_from (i dst_sz : Z) (src : cstr) : cstr :=
  match src with
  | [] => []
  | c :: src' =>
      if i + 1 <? dst_sz
      then tolower c :: to_lower_copy_from (i + 1) dst_sz src'
      else []
  end.

Definition to_lower_copy (dst_sz : Z) (src : cstr) : cstr :=
  to_lower_copy_from 0 dst_sz src.

(** ** Utility: case-insensitive substring check *)

(** Pointers may be null: [None]. *)
Definition contains_keyword_ci (text keyword : option cstr) : bool :=
  match text, keyword with
  | None, _ | _, None => false
  | Some text, Some keyword =>
      match keyword with
      | [] => false
      | _ :: _ =>
          let text_l := to_lower_copy MAX_DESC_LEN text in
          let key_l := to_lower_copy MAX_KEYWORD_LEN keyword in
          match strstr text_l key_l with
          | Some _ => true
          | None => false
          end
      end
  end.

(** ** The catalog *)

(** [float]: an IEEE-754 binary32 value. *)
Definition float := spec_float.

(** The binary32 value nearest to [m * 2^e]; [92.5f] is [f32 185 (-1)]. *)
Definition f32 (m e : Z) : float := binary_normalize 24 128 m e false.

Definition is_nan (x : float) : bool :=
  match x with
  | S754_nan => true
  | _ => false
  end.

Record Movie := mkMovie {
  title : cstr;
  director : cstr;
  release_date : cstr;
  popularity_rating : float;
  description : cstr
}.

(** An element of the zero-initialised static array [g_movies]. *)
Definition Movie_zero : Movie := mkMovie [] [] [] (S754_zero false) [].

(** [load_movies_hardcoded]: the value of [g_movies[0 .. g_movie_count)]
    after the call. *)
Definition load_movies_hardcoded : list Movie :=
  [ mkMovie (str "How to Train Your Dragon") (str "Chris Sanders")
      (str "2010-03-26") (f32 185 (-1))
      (str "A young Viking befriends a dragon and changes his village forever.");
    mkMovie (str "Dragonheart") (str "Rob Cohen") (str "1996-05-31") (f32 71 0)
      (str "A knight teams up with a dragon to overthrow a tyrant king.");
    mkMovie (str "Spirited Away") (str "Hayao Miyazaki") (str "2001-07-20")
      (f32 97 0)
      (str "A girl enters a spirit world filled with magic, mystery, and courage.");
    mkMovie (str "Interstellar") (str "Christopher Nolan") (str "2014-11-07")
      (f32 89 0)
      (str "A space mission searches for a new home for humanity beyond Earth.");
    mkMovie (str "The Dark Knight") (str "Christopher Nolan") (str "2008-07-18")
      (f32 94 0)
      (str "A crime saga where Gotham faces chaos and a villain tests the hero.");
    mkMovie (str "Inception") (str "Christopher Nolan") (str "2010-07-16")
      (f32 91 0)
      (str "A thief enters dreams to plant an idea; reality becomes uncertain.");
    mkMovie (str "The Lord of the Rings") (str "Peter Jackson") (str "2001-12-19")
      (f32 96 0)
      (str "An epic war against darkness with magic, courage, and sacrifice.");
    mkMovie (str "Love Actually") (str "Richard Curtis") (str "2003-11-14")
      (f32 78 0)
      (str "Multiple stories of love unfold during the holiday season.");
    mkMovie (str "War Horse") (str "Steven Spielberg") (str "2011-12-25")
      (f32 75 0)
      (str "A boy and his horse are separated by war and struggle to reunite.");
    mkMovie (str "The Girl with the Dragon Tattoo") (str "David Fincher")
      (str "2011-12-21") (f32 86 0)
      (str "A journalist and hacker investigate a mystery with dark secrets.") ].

(** [g_movies[i]]. *)
Definition movie_at (g_movies : list Movie) (i : Z) : Movie :=
  nth (Z.to_nat i) g_movies Movie_zero.

(** The keyword filter of the scan: the description of the record against
    the keyword. *)
Definition matches (m : Movie) (keyword : cstr) : bool :=
  contains_keyword_ci (Some (description m)) (Some keyword).

(** No rating is a NaN: the ratings are totally ordered by [<]. *)
Definition ratings_ordered (g_movies : list Movie) : bool :=
  forallb (fun m => negb (is_nan (popularity_rating m))) g_movies.

(** ** Sorting results by rating (descending) using indices *)

Record ResultItem := mkResultItem {
  idx : Z;
  rating : float
}.

Definition cmp_result_desc (ra rb : ResultItem) : Z :=
  if SFltb (rating ra) (rating rb) then 1
  else if SFltb (rating rb) (rating ra) then -1
  else 0.

(** [qsort] of libc, on an array of [ResultItem]. *)
Definition qsort_fn : Type :=
  (ResultItem -> ResultItem -> Z) -> list ResultItem -> list ResultItem.

(** What the C standard asks of the comparison function: its results on
    the elements of the array define a total ordering. *)
Definition cmp_consistent (cmp : ResultItem -> ResultItem -> Z)
    (l : list ResultItem) : Prop :=
  (forall a b, In a l -> In b l -> Z.sgn (cmp a b) = - Z.sgn (cmp b a)) /\
  (forall a b c, In a l -> In b l -> In c l ->
     cmp a b <= 0 -> cmp b c <= 0 -> cmp a c <= 0).

(** What it promises then: the array is rearranged into ascending order
    of the comparison function.  The order of elements that compare equal
    is unspecified, and so is everything when the comparison function is
    inconsistent. *)
Definition qsort_contract (qsort : qsort_fn) : Prop :=
  forall cmp l,
    cmp_consistent cmp l ->
    Permutation l (qsort cmp l) /\
    Sorted (fun a b => cmp a b <= 0) (qsort cmp l).

(** One conforming [qsort]: insertion sort. *)
Fixpoint insert_sorted (cmp : ResultItem -> ResultItem -> Z) (x : ResultItem)
    (l : list ResultItem) : list ResultItem :=
  match l with
  | [] => [x]
  | y :: l' => if cmp x y <=? 0 then x :: l else y :: insert_sorted cmp x l'
  end.

Definition insertion_sort : qsort_fn :=
  fun cmp l => fold_right (insert_sorted cmp) [] l.

(** ** Search function: scans DB, filters, sorts, prints *)

(** The scan loop from index [i], [movies] being [g_movies[i ..
    g_movie_count)] and [results] the filled part [results[0 ..
    res_count)] of the result array. *)
Fixpoint scan_from (i : Z) (movies : list Movie) (keyword : cstr)
    (results : list ResultItem) : list ResultItem :=
  match movies with
  | [] => results
  | m :: movies' =>
      scan_from (i + 1) movies' keyword
        (if contains_keyword_ci (Some (description m)) (Some keyword)
         then
           if Z.of_nat (length results) <? MAX_RESULTS
           then results ++ [mkResultItem i (popularity_rating m)]
           else results
         else results)
  end.

Definition scan (g_movies : list Movie) (keyword : cstr) : list ResultItem :=
  scan_from 0 g_movies keyword [].

(** [results[0 .. res_count)] after the call of [qsort]. *)
Definition search_results (qsort : qsort_fn) (g_movies : list Movie)
    (keyword : cstr) : list ResultItem :=
  qsort cmp_result_desc (scan g_movies keyword).

(** *** Output *)

Inductive printf_arg :=
| ArgInt (z : Z)
| ArgStr (s : cstr)
| ArgDouble (x : float).

(** One call of [printf]. *)
Inductive out_item :=
| Printf (fmt : cstr) (args : list printf_arg).

Definition rule_eq : cstr :=
  str "============================================================".
Definition rule_dash : cstr :=
  str "------------------------------------------------------------".

Definition fmt_header : cstr :=
  str "Keyword: " ++ [dquote] ++ str "%s" ++ [dquote] ++ str " | Matches: %d"
    ++ [nl].

Definition fmt_entry : cstr :=
  str "%2d) %-28s | %-18s | %s  (%.1f)" ++ [nl].

Definition results_at (results : list ResultItem) (i : Z) : ResultItem :=
  nth (Z.to_nat i) results (mkResultItem 0 (S754_zero false)).

(** The body of the print loop at index [i]. *)
Definition print_entry (g_movies : list Movie) (results : list ResultItem)
    (i : Z) : out_item :=
  let m := movie_at g_movies (idx (results_at results i)) in
  Printf fmt_entry
    [ArgInt (i + 1); ArgStr (title m); ArgStr (director m);
     ArgStr (release_date m); ArgDouble (popularity_rating m)].

(** The calls of [printf] between the lock and the unlock of
    [search_movies_and_print]. *)
Definition report_block (g_movies : list Movie) (keyword : cstr)
    (res_count : Z) (results : list ResultItem) : list out_item :=
  [ Printf ([nl] ++ rule_eq ++ [nl]) [];
    Printf fmt_header [ArgStr keyword; ArgInt res_count];
    Printf (str "Sorted by popularity rating (descending)" ++ [nl]) [];
    Printf (rule_dash ++ [nl]) [] ]
  ++ (if res_count =? 0
      then [Printf (str "(No matches found)" ++ [nl]) []]
      else map (fun i => print_entry g_movies results (Z.of_nat i))
             (seq 0 (Z.to_nat res_count)))
  ++ [Printf (rule_eq ++ [nl]) []].

(** The report of one search. *)
Definition search_report (qsort : qsort_fn) (g_movies : list Movie)
    (keyword : cstr) : list out_item :=
  let results := scan g_movies keyword in
  let res_count := Z.of_nat (length results) in
  report_block g_movies keyword res_count (qsort cmp_result_desc results).

(** The text a call of [printf] writes, for the conversions [%d] and [%s]
    with an optional [-] flag and a width.  The conversion of a floating
    argument is not modelled: [None]. *)
Inductive fmt_mode :=
| InText
| InSpec (ljust : bool) (width : nat).

Definition is_digit (c : ascii) : bool :=
  let n := N_of_ascii c in ((48 <=? n) && (n <=? 57))%N.

Definition digit_val (c : ascii) : nat := N.to_nat (N_of_ascii c - 48).

Definition pad (ljust : bool) (width : nat) (s : cstr) : cstr :=
  let fill := repeat " "%char (width - List.length s) in
  if ljust then s ++ fill else fill ++ s.

Definition decimal (z : Z) : cstr :=
  str (DecimalString.NilEmpty.string_of_int (Z.to_int z)).

Fixpoint render_from (mode : fmt_mode) (fmt : cstr) (args : list printf_arg)
    : option cstr :=
  match fmt with
  | [] => match mode with InText => Some [] | InSpec _ _ => None end
  | c :: fmt' =>
      match mode with
      | InText =>
          if Ascii.eqb c "%"
          then render_from (InSpec false 0) fmt' args
          else option_map (cons c) (render_from InText fmt' args)
      | InSpec ljust width =>
          if Ascii.eqb c "-" then render_from (InSpec true width) fmt' args
          else if is_digit c
          then render_from (InSpec ljust (10 * width + digit_val c)) fmt' args
          else if Ascii.eqb c "d" then
            match args with
            | ArgInt z :: args' =>
                option_map (app (pad ljust width (decimal z)))
                  (render_from InText fmt' args')
            | _ => None
            end
          else if Ascii.eqb c "s" then
            match args with
            | ArgStr s :: args' =>
                option_map (app (pad ljust width s))
                  (render_from InText fmt' args')
            | _ => None
            end
          else None
      end
  end.

Definition render (it : out_item) : option cstr :=
  match it with
  | Printf fmt args => render_from InText fmt args
  end.

Fixpoint render_all (items : list out_item) : option cstr :=
  match items with
  | [] => Some []
  | it :: items' =>
      match render it, render_all items' with
      | Some s, Some rest => Some (s ++ rest)
      | _, _ => None
      end
  end.

(** ** Concurrency controls *)

(** The calls a thread makes on the shared objects, in program order:
    [pthread_mutex_lock] and [pthread_mutex_unlock] on [g_print_mutex],
    [printf] on the standard output, [sem_wait] and [sem_post] on
    [g_db_sem], and [usleep]. *)
Inductive instr :=
| Lock
| Unlock
| Print (it : out_item)
| SemWait
| SemPost
| Usleep (usec : Z).

(** [search_movies_and_print]: the scan and the sort touch no shared
    mutable object; the report is printed under the mutex. *)
Definition search_movies_and_print (qsort : qsort_fn) (g_movies : list Movie)
    (keyword : cstr) : list instr :=
  [Lock] ++ map Print (search_report qsort g_movies keyword) ++ [Unlock].

(** ** Thread worker *)

Record WorkerArgs := mkWorkerArgs {
  keyword : cstr;
  worker_id : Z
}.

Definition log_waiting (wa : WorkerArgs) : out_item :=
  Printf (str "[Worker %d] Waiting for DB slot... (keyword: %s)" ++ [nl])
    [ArgInt (worker_id wa); ArgStr (keyword wa)].

Definition log_acquired (wa : WorkerArgs) : out_item :=
  Printf (str "[Worker %d] Acquired DB slot. Starting search..." ++ [nl])
    [ArgInt (worker_id wa)].

Definition log_finished (wa : WorkerArgs) : out_item :=
  Printf (str "[Worker %d] Finished search. Releasing DB slot." ++ [nl])
    [ArgInt (worker_id wa)].

Definition worker_prologue (wa : WorkerArgs) : list instr :=
  [Lock; Print (log_waiting wa); Unlock;
   SemWait;
   Lock; Print (log_acquired wa); Unlock;
   Usleep 200000].

Definition worker_epilogue (wa : WorkerArgs) : list instr :=
  [Lock; Print (log_finished wa); Unlock;
   SemPost].

Definition search_worker (qsort : qsort_fn) (g_movies : list Movie)
    (wa : WorkerArgs) : list instr :=
  worker_prologue wa
  ++ search_movies_and_print qsort g_movies (keyword wa)
  ++ worker_epilogue wa.

(** ** The threads of a run *)

(** A thread: the calls of its start routine and the number of them it
    has made. *)
Record thread := mkThread {
  code : list instr;
  pc : nat
}.

(** The shared objects and the threads.  [mutex] is the index of the
    thread that holds [g_print_mutex]; [out] is the standard output, each
    call of [printf] with the index of the thread that made it. *)
Record state := mkState {
  sem : nat;
  mutex : option nat;
  out : list (nat * out_item);
  threads : list thread
}.

Fixpoint upd {A : Type} (n : nat) (x : A) (l : list A) : list A :=
  match l, n with
  | [], _ => []
  | _ :: l', O => x :: l'
  | y :: l', S n' => y :: upd n' x l'
  end.

Definition advance (t : nat) (th : thread) (s : state) : list thread :=
  upd t (mkThread (code th) (S (pc th))) (threads s).

(** One call made by thread [t]; [None] when the thread has returned or
    the call blocks. *)
Definition step_thread (t : nat) (s : state) : option state :=
  match nth_error (threads s) t with
  | None => None
  | Some th =>
      match nth_error (code th) (pc th) with
      | None => None
      | Some Lock =>
          match mutex s with
          | None => Some (mkState (sem s) (Some t) (out s) (advance t th s))
          | Some _ => None
          end
      | Some Unlock =>
          Some (mkState (sem s) None (out s) (advance t th s))
      | Some (Print it) =>
          Some (mkState (sem s) (mutex s) (out s ++ [(t, it)])
                  (advance t th s))
      | Some SemWait =>
          match sem s with
          | O => None
          | S n => Some (mkState n (mutex s) (out s) (advance t th s))
          end
      | Some SemPost =>
          Some (mkState (S (sem s)) (mutex s) (out s) (advance t th s))
      | Some (Usleep _) =>
          Some (mkState (sem s) (mutex s) (out s) (advance t th s))
      end
  end.

Definition step (s s' : state) : Prop :=
  exists t, step_thread t s = Some s'.

Inductive reachable (s0 : state) : state -> Prop :=
| reachable_refl : reachable s0 s0
| reachable_step s s' : reachable s0 s -> step s s' -> reachable s0 s'.

(** The run that follows a schedule, a list of thread indices. *)
Fixpoint run (sched : list nat) (s : state) : option state :=
  match sched with
  | [] => Some s
  | t :: sched' =>
      match step_thread t s with
      | Some s' => run sched' s'
      | None => None
      end
  end.

(** The state after [sem_init(&g_db_sem, 0, K)] and the creation of one
    worker per element of [args]. *)
Definition init_state (qsort : qsort_fn) (g_movies : list Movie) (K : nat)
    (args : list WorkerArgs) : state :=
  mkState K None []
    (map (fun wa => mkThread (search_worker qsort g_movies wa) 0) args).

(** *** Main driver *)

Definition keywords : list cstr :=
  [str "dragon"; str "magic"; str "war"; str "love"; str "space";
   str "crime"; str "dream"; str "mystery"].

(** [strncpy(dst, src, n)] followed by [dst[n] = 0]. *)
Definition strncpy (n : Z) (src : cstr) : cstr := firstn (Z.to_nat n) src.

Fixpoint main_args_from (i : Z) (kws : list cstr) : list WorkerArgs :=
  match kws with
  | [] => []
  | kw :: kws' =>
      mkWorkerArgs (strncpy (MAX_KEYWORD_LEN - 1) kw) (i + 1)
        :: main_args_from (i + 1) kws'
  end.

Definition main_args : list WorkerArgs := main_args_from 0 keywords.

Definition main_init (qsort : qsort_fn) : state :=
  init_state qsort load_movies_hardcoded 5 main_args.

(** *** The states of a worker *)

Inductive phase :=
| Waiting
| Entered
| Searching
| Reporting
| Done.

(** Where a worker is: [Waiting] until [sem_wait] returns, [Entered]
    (the state "Admitted" of the specification) while it logs the
    acquisition, [Searching] from the pacing delay until
    it holds the print mutex for its report, [Reporting] until it unlocks
    it, [Done] from there on. *)
Definition phase_of (th : thread) : phase :=
  let n := List.length (code th) in
  if (pc th <? 4)%nat then Waiting
  else if (pc th <? 7)%nat then Entered
  else if (pc th <? 9)%nat then Searching
  else if (pc th <? n - 4)%nat then Reporting
  else Done.

Definition searching_or_reporting (th : thread) : bool :=
  match phase_of th with
  | Searching | Reporting => true
  | _ => false
  end.

Definition returned (th : thread) : bool :=
  (List.length (code th) <=? pc th)%nat.

(** Permits: the calls of [sem_post] and [sem_wait] a thread has still to
    make. *)
Definition is_sem_post (i : instr) : bool :=
  match i with SemPost => true | _ => false end.

Definition is_sem_wait (i : instr) : bool :=
  match i with SemWait => true | _ => false end.

Definition posts_left (th : thread) : nat :=
  List.length (filter is_sem_post (skipn (pc th) (code th))).

Definition waits_left (th : thread) : nat :=
  List.length (filter is_sem_wait (skipn (pc th) (code th))).

(** A thread holds a permit when it has one more [sem_post] than
    [sem_wait] to make. *)
Definition holds_permit (th : thread) : bool :=
  (waits_left th <? posts_left th)%nat.

(** ** Notions used to state the properties *)

(** [needle] occurs in [hay] as a substring. *)
Definition occurs_in (needle hay : cstr) : Prop :=
  exists pre post, hay = pre ++ needle ++ post.

Definition case_fold (s : cstr) : cstr := map tolower s.

(** The characters of [s] that fit a buffer of [size] bytes. *)
Definition truncate (size : Z) (s : cstr) : cstr :=
  firstn (Z.to_nat (size - 1)) s.

(** The keyword filter as the specification words it: the case-folded
    keyword occurs in the case-folded description, each cut to its
    buffer first. *)
Definition keyword_occurs (m : Movie) (kw : cstr) : Prop :=
  occurs_in (case_fold (truncate MAX_KEYWORD_LEN kw))
    (case_fold (truncate MAX_DESC_LEN (description m))).

(** Every match of the catalog from index [i] on, in catalog order. *)
Fixpoint all_matches_from (i : Z) (movies : list Movie) (kw : cstr)
    : list ResultItem :=
  match movies with
  | [] => []
  | m :: movies' =>
      if matches m kw
      then mkResultItem i (popularity_rating m)
             :: all_matches_from (i + 1) movies' kw
      else all_matches_from (i + 1) movies' kw
  end.

Definition all_matches (g_movies : list Movie) (kw : cstr) : list ResultItem :=
  all_matches_from 0 g_movies kw.

(** The order of the floats that are not NaN, through a key ordered
    lexicographically: the comparison of [SFcompare] on them. *)
Definition float_key (x : float) : Z * Z * Z :=
  match x with
  | S754_zero _ => (0, 0, 0)
  | S754_infinity s => (if s then -2 else 2, 0, 0)
  | S754_nan => (0, 0, 0)
  | S754_finite s m e =>
      if s then (-1, - e, - Zpos m) else (1, e, Zpos m)
  end.

Definition lex_lt (k1 k2 : Z * Z * Z) : Prop :=
  let '(a1, b1, c1) := k1 in
  let '(a2, b2, c2) := k2 in
  a1 < a2 \/ (a1 = a2 /\ (b1 < b2 \/ (b1 = b2 /\ c1 < c2))).

(** [a >= b] on ratings. *)
Definition rating_ge (a b : float) : Prop := SFleb b a = true.

(** The rating each entry line of a report prints. *)
Definition printed_rating (it : out_item) : list float :=
  match it with
  | Printf _ [ArgInt _; ArgStr _; ArgStr _; ArgStr _; ArgDouble x] => [x]
  | _ => []
  end.

Definition printed_ratings (items : list out_item) : list float :=
  flat_map printed_rating items.

(** The title and rating of the records a result list points to. *)
Definition ranked_titles (g_movies : list Movie) (results : list ResultItem)
    : list (cstr * float) :=
  map (fun r => (title (movie_at g_movies (idx r)), rating r)) results.

(** The calls of [printf] by thread [t] in the standard output. *)
Definition tagged (t : nat) (items : list out_item) : list (nat * out_item) :=
  map (pair t) items.

(** Whether a thread is between a lock and the matching unlock after the
    calls [done], having started in condition [b]. *)
Fixpoint locked_after (b : bool) (done : list instr) : bool :=
  match done with
  | [] => b
  | Lock :: done' => locked_after true done'
  | Unlock :: done' => locked_after false done'
  | _ :: done' => locked_after b done'
  end.

Definition in_section (th : thread) : bool :=
  locked_after false (firstn (pc th) (code th)).

(** The locking discipline of a start routine: it locks only outside a
    section, and prints and unlocks only inside one. *)
Fixpoint well_locked (b : bool) (c : list instr) : bool :=
  match c with
  | [] => negb b
  | Lock :: c' => negb b && well_locked true c'
  | Unlock :: c' => b && well_locked false c'
  | Print _ :: c' => b && well_locked b c'
  | _ :: c' => negb b && well_locked b c'
  end.

(** The number of permits held by the threads. *)
Definition permits_held (s : state) : nat :=
  List.length (filter holds_permit (threads s)).

Definition all_returned (s : state) : bool := forallb returned (threads s).

(** The lines of its report a worker has printed: the call at index 8 of
    [search_worker] is the lock of [search_movies_and_print], the calls
    from index 9 on print the report. *)
Definition report_start : nat := 9.

Definition lines_printed (th : thread) : nat := (pc th - report_start)%nat.

(** A scheduler for examples: every thread in turn makes one call, unless
    it is blocked or has returned. *)
Definition try_step (s : state) (t : nat) : state :=
  match step_thread t s with
  | Some s' => s'
  | None => s
  end.

Definition sweep (s : state) : state :=
  fold_left try_step (seq 0 (List.length (threads s))) s.

Fixpoint sweeps (n : nat) (s : state) : state :=
  match n with
  | O => s
  | S n' => sweeps n' (sweep s)
  end.

(** The calls the threads have still to make. *)
Definition calls_left (s : state) : nat :=
  list_sum (map (fun th => (List.length (code th) - pc th)%nat) (threads s)).

(** No two different entries of a result array tie under the comparison
    function. *)
Definition no_ties (l : list ResultItem) : Prop :=
  forall a b, In a l -> In b l -> a <> b -> cmp_result_desc a b <> 0.

(** The arguments of the calls of [printf] among the calls [c], in
    order. *)
Definition prints (c : list instr) : list out_item :=
  flat_map (fun i => match i with Print it => [it] | _ => [] end) c.

(** What thread [t] has written to the output [o]. *)
Definition output_of (t : nat) (o : list (nat * out_item)) : list out_item :=
  map snd (filter (fun x => Nat.eqb (fst x) t) o).

(** Everything a worker prints, in program order. *)
Definition worker_lines (qsort : qsort_fn) (g_movies : list Movie)
    (wa : WorkerArgs) : list out_item :=
  [log_waiting wa; log_acquired wa]
  ++ search_report qsort g_movies (keyword wa)
  ++ [log_finished wa].

Fixpoint cstr_eqb (a b : cstr) : bool :=
  match a, b with
  | [], [] => true
  | x :: a', y :: b' => Ascii.eqb x y && cstr_eqb a' b'
  | _, _ => false
  end.

(** The log lines of a worker, told by their format. *)
Definition is_acquired_line (it : out_item) : bool :=
  match it with
  | Printf fmt _ =>
      cstr_eqb fmt (str "[Worker %d] Acquired DB slot. Starting search..." ++ [nl])
  end.

Definition is_finished_line (it : out_item) : bool :=
  match it with
  | Printf fmt _ =>
      cstr_eqb fmt (str "[Worker %d] Finished search. Releasing DB slot." ++ [nl])
  end.

(** The number of lines of the output that satisfy [p]. *)
Definition count_lines (p : out_item -> bool) (o : list (nat * out_item))
    : nat :=
  List.length (filter p (map snd o)).

(** The calls of [printf] among the calls a thread has made that print a
    line satisfying [p]. *)
Definition printed_by (p : out_item -> bool) (th : thread) : nat :=
  List.length (filter p (prints (firstn (pc th) (code th)))).

(** Another conforming [qsort]: insertion sort from the other end of the
    array.  It leaves ties in the opposite order. *)
Definition insertion_sort_rev : qsort_fn :=
  fun cmp l => insertion_sort cmp (rev l).

(** * Properties *)

(** ** The keyword filter *)

Section Filter.

Lemma to_lower_copy_from_spec (src : cstr) :
  forall i dst_sz,
    to_lower_copy_from i dst_sz src
    = case_fold (firstn (Z.to_nat (dst_sz - 1 - i)) src).
Proof.
  induction src as [|c src IH]; intros i dst_sz; simpl.
  - now rewrite firstn_nil.
  - destruct (Z.ltb_spec (i + 1) dst_sz) as [Hlt|Hge].
    + rewrite IH.
      replace (Z.to_nat (dst_sz - 1 - i))
        with (S (Z.to_nat (dst_sz - 1 - (i + 1)))) by lia.
      reflexivity.
    + replace (Z.to_nat (dst_sz - 1 - i)) with O by lia.
      reflexivity.
Qed.

Lemma to_lower_copy_spec (dst_sz : Z) (src : cstr) :
  to_lower_copy dst_sz src = case_fold (truncate dst_sz src).
Proof.
  unfold to_lower_copy, truncate.
  rewrite to_lower_copy_from_spec.
  now rewrite Z.sub_0_r.
Qed.

Lemma starts_with_prefix (needle : cstr) :
  forall hay,
    starts_with needle hay = true <-> exists post, hay = needle ++ post.
Proof.
  induction needle as [|a needle IH]; intros hay; simpl.
  - split; [intros _; now exists hay | reflexivity].
  - destruct hay as [|b hay].
    + split; [discriminate | intros [post H]; discriminate].
    + rewrite andb_true_iff, Ascii.eqb_eq, IH.
      split.
      * intros [-> [post ->]]. now exists post.
      * intros [post H]. injection H as -> ->. split; [reflexivity | now exists post].
Qed.

Lemma strstr_occurs (hay needle : cstr) :
  strstr hay needle <> None <-> occurs_in needle hay.
Proof.
  unfold occurs_in.
  induction hay as [|c hay IH]; simpl.
  - destruct (starts_with needle []) eqn:E.
    + split; [intros _ | discriminate].
      apply starts_with_prefix in E as [post E].
      now exists [], post.
    + split; [congruence | intros [pre [post H]]].
      assert (Hs : starts_with needle [] = true).
      { apply starts_with_prefix.
        destruct pre; [now exists post | discriminate]. }
      congruence.
  - destruct (starts_with needle (c :: hay)) eqn:E.
    + split; [intros _ | discriminate].
      apply starts_with_prefix in E as [post E].
      now exists [], post.
    + rewrite IH. split.
      * intros [pre [post ->]]. now exists (c :: pre), post.
      * intros [pre [post H]].
        destruct pre as [|c' pre].
        -- assert (Hs : starts_with needle (c :: hay) = true)
             by (apply starts_with_prefix; now exists post).
           congruence.
        -- injection H as _ ->. now exists pre, post.
Qed.

Lemma contains_keyword_ci_nonempty (text keyword : cstr) :
  keyword <> [] ->
  contains_keyword_ci (Some text) (Some keyword) = true
  <-> occurs_in (case_fold (truncate MAX_KEYWORD_LEN keyword))
        (case_fold (truncate MAX_DESC_LEN text)).
Proof.
  intros Hne. unfold contains_keyword_ci.
  destruct keyword as [|k keyword]; [congruence|].
  rewrite !to_lower_copy_spec, <- strstr_occurs.
  destruct (strstr _ _); split; congruence.
Qed.

End Filter.

(** C3, as amended.  For every record and every non-empty keyword,
    [matches] is true exactly when the case-folded keyword, cut to the 63
    characters its buffer holds, occurs as a substring of the case-folded
    description, cut to 499 characters; an overlong input is truncated,
    not rejected.  Only the description is read: records with the same
    description match alike, whatever their title, director or date. *)
Theorem matches_nonempty_iff_occurs (m : Movie) (kw : cstr) :
  kw <> [] ->
  (matches m kw = true <-> keyword_occurs m kw) /\
  (forall m', description m' = description m -> matches m' kw = matches m kw).
Proof.
  intros Hne. split.
  - now apply contains_keyword_ci_nonempty.
  - intros m' Hd. unfold matches. now rewrite Hd.
Qed.

Lemma matches_nonempty_iff_occurs_witness :
  str "DrAgOn" <> [] /\
  ((matches (nth 0 load_movies_hardcoded Movie_zero) (str "DrAgOn") = true
    <-> keyword_occurs (nth 0 load_movies_hardcoded Movie_zero) (str "DrAgOn")) /\
   (forall m',
      description m' = description (nth 0 load_movies_hardcoded Movie_zero) ->
      matches m' (str "DrAgOn")
      = matches (nth 0 load_movies_hardcoded Movie_zero) (str "DrAgOn"))).
Proof.
  split; [discriminate|].
  apply (matches_nonempty_iff_occurs (nth 0 load_movies_hardcoded Movie_zero)
           (str "DrAgOn")).
  discriminate.
Defined.

(** C3 as stated fails on the empty keyword: it occurs in every
    description, and [matches] rejects it. *)
Lemma matches_iff_occurs_fails_on_empty :
  ~ (forall m kw, matches m kw = true <-> keyword_occurs m kw).
Proof.
  intros H.
  specialize (H Movie_zero []).
  assert (Hocc : keyword_occurs Movie_zero []) by now exists [], [].
  apply H in Hocc. discriminate.
Qed.

(** The cut is at 63 characters, one less than [MAX_KEYWORD_LEN]: a
    keyword of 64 characters matches a description that holds its first
    63 characters only. *)
Example keyword_cut_at_63 :
  matches (mkMovie [] [] [] (S754_zero false) (repeat "a"%char 63))
    (repeat "a"%char 63 ++ ["b"%char]) = true /\
  ~ occurs_in (case_fold (repeat "a"%char 63 ++ ["b"%char]))
      (case_fold (repeat "a"%char 63)).
Proof.
  split; [vm_compute; reflexivity|].
  intros (pre & post & H).
  apply (f_equal (@List.length ascii)) in H.
  rewrite !length_app in H. unfold case_fold in H.
  rewrite !length_map, length_app, !repeat_length in H.
  simpl in H. lia.
Qed.

(** C5.  The empty keyword matches no record; [contains_keyword_ci]
    returns 0 on it for every text. *)
Theorem empty_keyword_never_matches :
  (forall m : Movie, matches m [] = false) /\
  (forall text : option cstr, contains_keyword_ci text (Some []) = false).
Proof.
  split.
  - intros m. reflexivity.
  - intros [text|]; reflexivity.
Qed.

(** ** The scan *)

Section Scan.

Variable kw : cstr.

Lemma scan_from_all_matches (movies : list Movie) :
  forall i results,
    (List.length results <= Z.to_nat MAX_RESULTS)%nat ->
    scan_from i movies kw results
    = results
      ++ firstn (Z.to_nat MAX_RESULTS - List.length results)
           (all_matches_from i movies kw).
Proof.
  assert (Hcap : Z.of_nat (Z.to_nat MAX_RESULTS) = MAX_RESULTS) by reflexivity.
  revert Hcap. generalize (Z.to_nat MAX_RESULTS) as cap. intros cap Hcap.
  induction movies as [|m movies IH]; intros i results Hlen;
    cbn [scan_from all_matches_from].
  - now rewrite firstn_nil, app_nil_r.
  - change (contains_keyword_ci (Some (description m)) (Some kw))
      with (matches m kw).
    destruct (matches m kw); [|now apply IH].
    destruct (Z.ltb_spec (Z.of_nat (List.length results)) MAX_RESULTS)
      as [Hlt|Hge].
    + rewrite IH by (rewrite length_app; cbn [List.length]; lia).
      rewrite length_app; cbn [List.length].
      replace (cap - List.length results)%nat
        with (S (cap - (List.length results + 1)))%nat by lia.
      cbn [firstn]. now rewrite <- app_assoc.
    + rewrite IH by exact Hlen.
      replace (cap - List.length results)%nat with O by lia.
      reflexivity.
Qed.

Lemma scan_all_matches (g_movies : list Movie) :
  scan g_movies kw = firstn (Z.to_nat MAX_RESULTS) (all_matches g_movies kw).
Proof.
  unfold scan, all_matches.
  rewrite scan_from_all_matches by (cbn [List.length]; lia).
  cbn [List.length app]. now rewrite Nat.sub_0_r.
Qed.

Lemma scan_length (g_movies : list Movie) :
  Z.of_nat (List.length (scan g_movies kw))
  = Z.min (Z.of_nat (List.length (all_matches g_movies kw))) MAX_RESULTS.
Proof.
  rewrite scan_all_matches, length_firstn. unfold MAX_RESULTS. lia.
Qed.

(** What the entries of [all_matches_from] are. *)
Lemma all_matches_from_sound (movies : list Movie) :
  forall i r,
    In r (all_matches_from i movies kw) ->
    i <= idx r < i + Z.of_nat (List.length movies) /\
    matches (nth (Z.to_nat (idx r - i)) movies Movie_zero) kw = true /\
    rating r
    = popularity_rating (nth (Z.to_nat (idx r - i)) movies Movie_zero).
Proof.
  induction movies as [|m movies IH]; intros i r Hin; simpl in Hin.
  - contradiction.
  - assert (Hrec :
      In r (all_matches_from (i + 1) movies kw) ->
      i <= idx r < i + Z.of_nat (List.length (m :: movies)) /\
      matches (nth (Z.to_nat (idx r - i)) (m :: movies) Movie_zero) kw = true /\
      rating r
      = popularity_rating (nth (Z.to_nat (idx r - i)) (m :: movies) Movie_zero)).
    { intros H. apply IH in H as (Hb & Hm & Hr).
      replace (Z.to_nat (idx r - i)) with (S (Z.to_nat (idx r - (i + 1))))
        by lia.
      simpl nth. simpl List.length. repeat split; try assumption; lia. }
    destruct (matches m kw) eqn:Em.
    + destruct Hin as [<- | Hin]; [|now apply Hrec].
      simpl idx. simpl rating. rewrite Z.sub_diag. simpl.
      repeat split; try assumption; lia.
    + now apply Hrec.
Qed.

Lemma all_matches_from_lower (movies : list Movie) :
  forall i, Forall (fun r => i <= idx r) (all_matches_from i movies kw).
Proof.
  induction movies as [|m movies IH]; intros i; simpl.
  - constructor.
  - assert (Hrec : Forall (fun r => i <= idx r)
                     (all_matches_from (i + 1) movies kw)).
    { eapply Forall_impl; [|apply IH]. simpl. intros; lia. }
    destruct (matches m kw); [constructor; [simpl; lia | exact Hrec] | exact Hrec].
Qed.

Lemma all_matches_from_NoDup (movies : list Movie) :
  forall i, NoDup (map idx (all_matches_from i movies kw)).
Proof.
  induction movies as [|m movies IH]; intros i; simpl.
  - constructor.
  - destruct (matches m kw); [|apply IH].
    simpl. constructor; [|apply IH].
    intros Hin. apply in_map_iff in Hin as (r & Hr & Hin).
    pose proof (all_matches_from_lower movies (i + 1)) as Hlow.
    rewrite Forall_forall in Hlow. apply Hlow in Hin. lia.
Qed.

Lemma all_matches_from_complete (movies : list Movie) :
  forall i j,
    (j < List.length movies)%nat ->
    matches (nth j movies Movie_zero) kw = true ->
    In (i + Z.of_nat j) (map idx (all_matches_from i movies kw)).
Proof.
  induction movies as [|m movies IH]; intros i j Hj Hm; simpl in *.
  - lia.
  - destruct j as [|j].
    + rewrite Hm. simpl. left. lia.
    + assert (Hin : In (i + 1 + Z.of_nat j)
                      (map idx (all_matches_from (i + 1) movies kw)))
        by (apply IH; [lia | exact Hm]).
      replace (i + Z.of_nat (S j)) with (i + 1 + Z.of_nat j) by lia.
      destruct (matches m kw); [right|]; exact Hin.
Qed.

Lemma In_firstn {A : Type} (n : nat) (l : list A) (x : A) :
  In x (firstn n l) -> In x l.
Proof.
  intros H. rewrite <- (firstn_skipn n l). apply in_or_app. now left.
Qed.

(** The entries of the scan, before the sort. *)
Lemma scan_entry_sound (g_movies : list Movie) (r : ResultItem) :
  In r (scan g_movies kw) ->
  0 <= idx r < Z.of_nat (List.length g_movies) /\
  matches (movie_at g_movies (idx r)) kw = true /\
  rating r = popularity_rating (movie_at g_movies (idx r)).
Proof.
  rewrite scan_all_matches. intros Hin.
  apply In_firstn in Hin.
  apply all_matches_from_sound in Hin.
  rewrite Z.sub_0_r in Hin. exact Hin.
Qed.

Lemma NoDup_firstn {A : Type} (n : nat) (l : list A) :
  NoDup l -> NoDup (firstn n l).
Proof.
  intros H. rewrite <- (firstn_skipn n l) in H.
  now apply NoDup_app_remove_r in H.
Qed.

Lemma scan_NoDup (g_movies : list Movie) :
  NoDup (map idx (scan g_movies kw)).
Proof.
  rewrite scan_all_matches, <- firstn_map.
  apply NoDup_firstn, all_matches_from_NoDup.
Qed.

Lemma scan_complete (g_movies : list Movie) (i : Z) :
  Z.of_nat (List.length (all_matches g_movies kw)) <= MAX_RESULTS ->
  0 <= i < Z.of_nat (List.length g_movies) ->
  matches (movie_at g_movies i) kw = true ->
  In i (map idx (scan g_movies kw)).
Proof.
  unfold MAX_RESULTS. intros Hcap Hi Hm.
  rewrite scan_all_matches.
  rewrite firstn_all2 by (unfold MAX_RESULTS; lia).
  unfold all_matches, movie_at in *.
  replace i with (0 + Z.of_nat (Z.to_nat i)) by lia.
  apply all_matches_from_complete; [lia | exact Hm].
Qed.

End Scan.

(** ** The comparison of ratings *)

Section Ratings.

Lemma SFltb_key (x y : float) :
  is_nan x = false -> is_nan y = false ->
  (SFltb x y = true <-> lex_lt (float_key x) (float_key y)).
Proof.
  destruct x as [sx|sx| |sx mx ex], y as [sy|sy| |sy my ey];
    try discriminate; intros _ _;
    unfold SFltb, SFcompare, lex_lt, float_key;
    try destruct sx; try destruct sy;
    try change (Pos.compare_cont Eq mx my) with (Pos.compare mx my);
    try destruct (Z.compare_spec ex ey) as [He|He|He];
    try destruct (Pos.compare_spec mx my) as [Hm|Hm|Hm];
    cbn [CompOpp]; split; intros H; try discriminate H; try reflexivity; try lia.
Qed.

Lemma SFleb_key (x y : float) :
  is_nan x = false -> is_nan y = false ->
  (SFleb x y = true <-> ~ lex_lt (float_key y) (float_key x)).
Proof.
  destruct x as [sx|sx| |sx mx ex], y as [sy|sy| |sy my ey];
    try discriminate; intros _ _;
    unfold SFleb, SFcompare, lex_lt, float_key;
    try destruct sx; try destruct sy;
    try change (Pos.compare_cont Eq mx my) with (Pos.compare mx my);
    try destruct (Z.compare_spec ex ey) as [He|He|He];
    try destruct (Pos.compare_spec mx my) as [Hm|Hm|Hm];
    cbn [CompOpp]; split; intros H; try discriminate H; try reflexivity; try lia.
Qed.

Lemma lex_lt_asym (k1 k2 : Z * Z * Z) : lex_lt k1 k2 -> ~ lex_lt k2 k1.
Proof.
  destruct k1 as [[a1 b1] c1], k2 as [[a2 b2] c2]. unfold lex_lt. lia.
Qed.

Lemma lex_ge_trans (k1 k2 k3 : Z * Z * Z) :
  ~ lex_lt k1 k2 -> ~ lex_lt k2 k3 -> ~ lex_lt k1 k3.
Proof.
  destruct k1 as [[a1 b1] c1], k2 as [[a2 b2] c2], k3 as [[a3 b3] c3].
  unfold lex_lt. lia.
Qed.

Lemma cmp_result_desc_le (a b : ResultItem) :
  is_nan (rating a) = false -> is_nan (rating b) = false ->
  (cmp_result_desc a b <= 0
   <-> ~ lex_lt (float_key (rating a)) (float_key (rating b))).
Proof.
  intros Ha Hb. unfold cmp_result_desc.
  rewrite <- (SFltb_key _ _ Ha Hb).
  destruct (SFltb (rating a) (rating b)).
  - split; [lia | intros H; now elim H].
  - split; [discriminate | intros _].
    destruct (SFltb (rating b) (rating a)); lia.
Qed.

Lemma cmp_result_desc_sgn (a b : ResultItem) :
  is_nan (rating a) = false -> is_nan (rating b) = false ->
  Z.sgn (cmp_result_desc a b) = - Z.sgn (cmp_result_desc b a).
Proof.
  intros Ha Hb. unfold cmp_result_desc.
  pose proof (SFltb_key _ _ Ha Hb) as Hab.
  pose proof (SFltb_key _ _ Hb Ha) as Hba.
  destruct (SFltb (rating a) (rating b)), (SFltb (rating b) (rating a));
    try reflexivity.
  exfalso.
  apply (lex_lt_asym (float_key (rating a)) (float_key (rating b)));
    [now apply Hab | now apply Hba].
Qed.

(** On ratings that are not NaN the comparison function defines a total
    ordering, as [qsort] requires. *)
Lemma cmp_result_desc_consistent (l : list ResultItem) :
  Forall (fun r => is_nan (rating r) = false) l ->
  cmp_consistent cmp_result_desc l.
Proof.
  rewrite Forall_forall. intros Hl. split.
  - intros a b Ha Hb. apply cmp_result_desc_sgn; now apply Hl.
  - intros a b c Ha Hb Hc.
    rewrite !cmp_result_desc_le by now apply Hl.
    apply lex_ge_trans.
Qed.

Lemma cmp_result_desc_ge (a b : ResultItem) :
  is_nan (rating a) = false -> is_nan (rating b) = false ->
  cmp_result_desc a b <= 0 -> rating_ge (rating a) (rating b).
Proof.
  intros Ha Hb H. unfold rating_ge.
  apply SFleb_key; [assumption | assumption |].
  now apply cmp_result_desc_le.
Qed.

End Ratings.

(** ** Insertion sort keeps the contract of [qsort] *)

Section InsertionSort.

Variable cmp : ResultItem -> ResultItem -> Z.

Lemma insert_sorted_perm (x : ResultItem) (l : list ResultItem) :
  Permutation (x :: l) (insert_sorted cmp x l).
Proof.
  induction l as [|y l IH]; simpl.
  - apply Permutation_refl.
  - destruct (cmp x y <=? 0).
    + apply Permutation_refl.
    + eapply perm_trans; [apply perm_swap|]. now apply perm_skip.
Qed.

Lemma insertion_sort_perm (l : list ResultItem) :
  Permutation l (insertion_sort cmp l).
Proof.
  induction l as [|x l IH]; simpl.
  - apply perm_nil.
  - eapply perm_trans; [apply perm_skip, IH | apply insert_sorted_perm].
Qed.

Lemma insert_sorted_Sorted (x : ResultItem) (l : list ResultItem) :
  (forall y, In y l -> 0 < cmp x y -> cmp y x <= 0) ->
  Sorted (fun a b => cmp a b <= 0) l ->
  Sorted (fun a b => cmp a b <= 0) (insert_sorted cmp x l).
Proof.
  intros Hanti Hs. induction Hs as [|y l Hs IH Hhd]; simpl.
  - repeat constructor.
  - destruct (Z.leb_spec (cmp x y) 0) as [Hle|Hgt].
    + constructor; [now constructor | now constructor].
    + constructor.
      * apply IH. intros z Hz. apply Hanti. now right.
      * destruct Hhd as [|z l Hyz]; simpl.
        -- constructor. apply Hanti; [now left | exact Hgt].
        -- destruct (cmp x z <=? 0); constructor;
             [apply Hanti; [now left | exact Hgt] | exact Hyz].
Qed.

Lemma insertion_sort_Sorted (l : list ResultItem) :
  cmp_consistent cmp l ->
  Sorted (fun a b => cmp a b <= 0) (insertion_sort cmp l).
Proof.
  intros [Hanti _].
  assert (Hsub : forall l', incl l' l ->
            Sorted (fun a b => cmp a b <= 0) (insertion_sort cmp l')).
  { induction l' as [|x l' IH]; intros Hincl; simpl.
    - constructor.
    - apply insert_sorted_Sorted.
      + intros y Hy Hgt.
        assert (Hyl : In y l).
        { apply Hincl. right.
          eapply Permutation_in;
            [apply Permutation_sym, insertion_sort_perm | exact Hy]. }
        assert (Hxl : In x l) by (apply Hincl; now left).
        specialize (Hanti x y Hxl Hyl).
        pose proof (Z.sgn_spec (cmp x y)). pose proof (Z.sgn_spec (cmp y x)).
        lia.
      + apply IH. intros z Hz. apply Hincl. now right. }
  apply Hsub, incl_refl.
Qed.

End InsertionSort.

Lemma insertion_sort_contract : qsort_contract insertion_sort.
Proof.
  intros cmp l Hc. split.
  - apply insertion_sort_perm.
  - now apply insertion_sort_Sorted.
Qed.

(** ** The ranked results *)

Section Search.

Variable qsort : qsort_fn.
Hypothesis qsort_ok : qsort_contract qsort.

Variable g_movies : list Movie.
Variable kw : cstr.

Lemma ratings_ordered_nth (i : Z) :
  ratings_ordered g_movies = true ->
  0 <= i < Z.of_nat (List.length g_movies) ->
  is_nan (popularity_rating (movie_at g_movies i)) = false.
Proof.
  unfold ratings_ordered. rewrite forallb_forall. intros Hord Hi.
  apply negb_true_iff, Hord. unfold movie_at. apply nth_In. lia.
Qed.

Lemma scan_ratings_ordered :
  ratings_ordered g_movies = true ->
  Forall (fun r => is_nan (rating r) = false) (scan g_movies kw).
Proof.
  intros Hord. apply Forall_forall. intros r Hr.
  apply scan_entry_sound in Hr as (Hb & _ & ->).
  now apply ratings_ordered_nth.
Qed.

Lemma search_results_perm :
  ratings_ordered g_movies = true ->
  Permutation (scan g_movies kw) (search_results qsort g_movies kw).
Proof.
  intros Hord.
  apply qsort_ok, cmp_result_desc_consistent, scan_ratings_ordered, Hord.
Qed.

Lemma search_results_Sorted :
  ratings_ordered g_movies = true ->
  Sorted (fun a b => cmp_result_desc a b <= 0)
    (search_results qsort g_movies kw).
Proof.
  intros Hord.
  apply qsort_ok, cmp_result_desc_consistent, scan_ratings_ordered, Hord.
Qed.

Lemma search_results_entry_sound (r : ResultItem) :
  ratings_ordered g_movies = true ->
  In r (search_results qsort g_movies kw) ->
  0 <= idx r < Z.of_nat (List.length g_movies) /\
  matches (movie_at g_movies (idx r)) kw = true /\
  rating r = popularity_rating (movie_at g_movies (idx r)).
Proof.
  intros Hord Hin. apply scan_entry_sound.
  eapply Permutation_in;
    [apply Permutation_sym, search_results_perm, Hord | exact Hin].
Qed.

End Search.

Lemma Sorted_map_strengthen {A B : Type} (P : A -> Prop) (R : A -> A -> Prop)
    (R' : B -> B -> Prop) (f : A -> B) (l : list A) :
  (forall a b, P a -> P b -> R a b -> R' (f a) (f b)) ->
  Forall P l -> Sorted R l -> Sorted R' (map f l).
Proof.
  intros Himp HP Hs. induction Hs as [|a l Hs IH Hhd]; simpl.
  - constructor.
  - inversion HP as [|? ? Pa Pl]; subst.
    constructor; [now apply IH|].
    destruct Hhd as [|b l Hab]; simpl; constructor.
    inversion Pl; subst. now apply Himp.
Qed.

Lemma map_nth_seq {A B : Type} (f : A -> B) (d : A) (l : list A) :
  map (fun i => f (nth i l d)) (seq 0 (List.length l)) = map f l.
Proof.
  induction l as [|a l IH]; simpl.
  - reflexivity.
  - f_equal. rewrite <- seq_shift, map_map. exact IH.
Qed.

Lemma all_matches_from_length (kw : cstr) (movies : list Movie) :
  forall i,
    List.length (all_matches_from i movies kw)
    = List.length (filter (fun m => matches m kw) movies).
Proof.
  induction movies as [|m movies IH]; intros i; simpl.
  - reflexivity.
  - destruct (matches m kw); simpl; now rewrite IH.
Qed.

Lemma printed_ratings_entries (g_movies : list Movie)
    (results : list ResultItem) (l : list nat) :
  printed_ratings
    (map (fun i => print_entry g_movies results (Z.of_nat i)) l)
  = map (fun i =>
           popularity_rating
             (movie_at g_movies (idx (results_at results (Z.of_nat i))))) l.
Proof.
  induction l as [|i l IH]; simpl.
  - reflexivity.
  - f_equal. exact IH.
Qed.

(** C4.  For every keyword, on a catalog whose ratings are numbers, the
    ratings the report prints are those of the ranked result list, in its
    order, and each is greater than or equal to the next: the sequence
    never increases.  Nothing is said of the order of equal ratings. *)
Theorem ranked_results_non_increasing (qsort : qsort_fn)
    (g_movies : list Movie) (kw : cstr) :
  qsort_contract qsort ->
  ratings_ordered g_movies = true ->
  printed_ratings (search_report qsort g_movies kw)
  = map rating (search_results qsort g_movies kw) /\
  Sorted rating_ge (map rating (search_results qsort g_movies kw)).
Proof.
  intros Hq Hord.
  pose proof (search_results_perm qsort Hq g_movies kw Hord) as Hperm.
  assert (Hnan : Forall (fun r => is_nan (rating r) = false)
                   (search_results qsort g_movies kw)).
  { eapply Permutation_Forall; [exact Hperm|].
    now apply scan_ratings_ordered. }
  split.
  - unfold search_report, report_block.
    fold (search_results qsort g_movies kw).
    rewrite (Permutation_length Hperm).
    unfold printed_ratings. rewrite !flat_map_app. cbn [flat_map printed_rating app].
    rewrite app_nil_r.
    destruct (search_results qsort g_movies kw) as [|r rs] eqn:Ers.
    + reflexivity.
    + replace (Z.of_nat (List.length (r :: rs)) =? 0) with false
        by (symmetry; apply Z.eqb_neq; simpl List.length; lia).
      rewrite Nat2Z.id.
      change (flat_map printed_rating ?l) with (printed_ratings l).
      rewrite printed_ratings_entries.
      rewrite <- (map_nth_seq rating (mkResultItem 0 (S754_zero false)) (r :: rs)).
      apply map_ext_in. intros i Hi. apply in_seq in Hi.
      unfold results_at. rewrite Nat2Z.id.
      symmetry.
      apply (search_results_entry_sound qsort Hq g_movies kw); [exact Hord|].
      rewrite Ers. apply nth_In. lia.
  - eapply Sorted_map_strengthen;
      [| exact Hnan | apply search_results_Sorted; assumption].
    intros a b Ha Hb. now apply cmp_result_desc_ge.
Qed.

Lemma ranked_results_non_increasing_witness :
  qsort_contract insertion_sort /\
  ratings_ordered load_movies_hardcoded = true /\
  printed_ratings (search_report insertion_sort load_movies_hardcoded (str "war"))
  = map rating (search_results insertion_sort load_movies_hardcoded (str "war")) /\
  Sorted rating_ge
    (map rating (search_results insertion_sort load_movies_hardcoded (str "war"))).
Proof.
  split; [exact insertion_sort_contract|].
  split; [reflexivity|].
  apply (ranked_results_non_increasing insertion_sort load_movies_hardcoded
           (str "war")).
  - exact insertion_sort_contract.
  - reflexivity.
Defined.

(** C10.  For every keyword, on a catalog whose ratings are numbers: the
    entries of the ranked result list point to pairwise distinct catalog
    positions; each position is valid, its description matches the
    keyword, and the rating of the entry is the rating stored there; and
    when no more than [MAX_RESULTS] records match, every matching position
    occurs exactly once. *)
Theorem result_entries_valid (qsort : qsort_fn) (g_movies : list Movie)
    (kw : cstr) :
  qsort_contract qsort ->
  ratings_ordered g_movies = true ->
  NoDup (map idx (search_results qsort g_movies kw)) /\
  (forall r, In r (search_results qsort g_movies kw) ->
     0 <= idx r < Z.of_nat (List.length g_movies) /\
     matches (movie_at g_movies (idx r)) kw = true /\
     rating r = popularity_rating (movie_at g_movies (idx r))) /\
  (Z.of_nat (List.length (filter (fun m => matches m kw) g_movies))
   <= MAX_RESULTS ->
   forall i, 0 <= i < Z.of_nat (List.length g_movies) ->
     matches (movie_at g_movies i) kw = true ->
     count_occ Z.eq_dec (map idx (search_results qsort g_movies kw)) i = 1%nat).
Proof.
  intros Hq Hord.
  pose proof (search_results_perm qsort Hq g_movies kw Hord) as Hperm.
  assert (Hnd : NoDup (map idx (search_results qsort g_movies kw))).
  { eapply Permutation_NoDup; [apply Permutation_map, Hperm|].
    apply scan_NoDup. }
  split; [exact Hnd|]. split.
  - intros r Hr. now apply (search_results_entry_sound qsort Hq).
  - intros Hcap i Hi Hm.
    apply (proj1 (NoDup_count_occ' Z.eq_dec _) Hnd).
    eapply Permutation_in; [apply Permutation_map, Hperm|].
    apply scan_complete; [|exact Hi|exact Hm].
    unfold all_matches. now rewrite all_matches_from_length.
Qed.

Lemma result_entries_valid_witness :
  qsort_contract insertion_sort /\
  ratings_ordered load_movies_hardcoded = true /\
  NoDup (map idx (search_results insertion_sort load_movies_hardcoded
                    (str "magic"))) /\
  (forall r,
     In r (search_results insertion_sort load_movies_hardcoded (str "magic")) ->
     0 <= idx r < Z.of_nat (List.length load_movies_hardcoded) /\
     matches (movie_at load_movies_hardcoded (idx r)) (str "magic") = true /\
     rating r = popularity_rating (movie_at load_movies_hardcoded (idx r))) /\
  (Z.of_nat (List.length (filter (fun m => matches m (str "magic"))
                            load_movies_hardcoded))
   <= MAX_RESULTS ->
   forall i, 0 <= i < Z.of_nat (List.length load_movies_hardcoded) ->
     matches (movie_at load_movies_hardcoded i) (str "magic") = true ->
     count_occ Z.eq_dec
       (map idx (search_results insertion_sort load_movies_hardcoded
                   (str "magic"))) i = 1%nat).
Proof.
  split; [exact insertion_sort_contract|].
  split; [reflexivity|].
  apply (result_entries_valid insertion_sort load_movies_hardcoded
           (str "magic")).
  - exact insertion_sort_contract.
  - reflexivity.
Defined.

(** C6.  For every keyword, the scan collects the first [MAX_RESULTS]
    matching records and no more: the result count never exceeds the
    capacity, later matches are dropped, and the report is printed as
    usual, under the mutex, with that count in its header and one line
    per collected entry (one line when there is none) and nothing about
    an overflow. *)
Theorem result_set_bounded (qsort : qsort_fn) (g_movies : list Movie)
    (kw : cstr) :
  Z.of_nat (List.length (scan g_movies kw)) <= MAX_RESULTS /\
  scan g_movies kw = firstn (Z.to_nat MAX_RESULTS) (all_matches g_movies kw) /\
  Z.of_nat (List.length (scan g_movies kw))
  = Z.min (Z.of_nat (List.length (filter (fun m => matches m kw) g_movies)))
      MAX_RESULTS /\
  (exists body,
     search_report qsort g_movies kw
     = [ Printf ([nl] ++ rule_eq ++ [nl]) [];
         Printf fmt_header
           [ArgStr kw; ArgInt (Z.of_nat (List.length (scan g_movies kw)))];
         Printf (str "Sorted by popularity rating (descending)" ++ [nl]) [];
         Printf (rule_dash ++ [nl]) [] ]
       ++ body ++ [Printf (rule_eq ++ [nl]) []] /\
     Z.of_nat (List.length body)
     = Z.max 1 (Z.of_nat (List.length (scan g_movies kw)))) /\
  search_movies_and_print qsort g_movies kw
  = [Lock] ++ map Print (search_report qsort g_movies kw) ++ [Unlock].
Proof.
  pose proof (scan_length kw g_movies) as Hlen.
  unfold all_matches in Hlen. rewrite all_matches_from_length in Hlen.
  split; [lia|]. split; [apply scan_all_matches|]. split; [exact Hlen|].
  split; [|reflexivity].
  unfold search_report, report_block.
  eexists. split; [reflexivity|].
  destruct (Z.eqb_spec (Z.of_nat (List.length (scan g_movies kw))) 0) as [E|E].
  - rewrite E. reflexivity.
  - rewrite length_map, length_seq. lia.
Qed.

(** A catalog with more matches than the result array holds: 31 copies
    of one matching record give a result count of 30. *)
Example scan_drops_beyond_capacity :
  List.length (scan (repeat (nth 0 load_movies_hardcoded Movie_zero) 31)
                 (str "dragon")) = 30%nat.
Proof. vm_compute. reflexivity. Qed.

Lemma all_matches_from_none (kw : cstr) (movies : list Movie) :
  (forall m, In m movies -> matches m kw = false) ->
  forall i, all_matches_from i movies kw = [].
Proof.
  induction movies as [|m movies IH]; intros Hno i; simpl.
  - reflexivity.
  - rewrite (Hno m) by now left.
    apply IH. intros m' Hm'. apply Hno. now right.
Qed.

(** C9.  For every keyword that matches no description, the search
    prints, under the mutex, the complete report block: the header with
    [Matches: 0], the single body line [(No matches found)] and the
    footer.  The text is given as written to the standard output. *)
Theorem no_match_report (qsort : qsort_fn) (g_movies : list Movie)
    (kw : cstr) :
  (forall m, In m g_movies -> matches m kw = false) ->
  search_report qsort g_movies kw
  = [ Printf ([nl] ++ rule_eq ++ [nl]) [];
      Printf fmt_header [ArgStr kw; ArgInt 0];
      Printf (str "Sorted by popularity rating (descending)" ++ [nl]) [];
      Printf (rule_dash ++ [nl]) [];
      Printf (str "(No matches found)" ++ [nl]) [];
      Printf (rule_eq ++ [nl]) [] ] /\
  render_all (search_report qsort g_movies kw)
  = Some ([nl] ++ rule_eq ++ [nl]
          ++ str "Keyword: " ++ [dquote] ++ kw ++ [dquote]
          ++ str " | Matches: 0" ++ [nl]
          ++ str "Sorted by popularity rating (descending)" ++ [nl]
          ++ rule_dash ++ [nl]
          ++ str "(No matches found)" ++ [nl]
          ++ rule_eq ++ [nl]) /\
  search_movies_and_print qsort g_movies kw
  = [Lock] ++ map Print (search_report qsort g_movies kw) ++ [Unlock].
Proof.
  intros Hno.
  assert (Hscan : scan g_movies kw = []).
  { rewrite scan_all_matches. unfold all_matches.
    rewrite all_matches_from_none by exact Hno. apply firstn_nil. }
  assert (Hrep : search_report qsort g_movies kw
    = [ Printf ([nl] ++ rule_eq ++ [nl]) [];
        Printf fmt_header [ArgStr kw; ArgInt 0];
        Printf (str "Sorted by popularity rating (descending)" ++ [nl]) [];
        Printf (rule_dash ++ [nl]) [];
        Printf (str "(No matches found)" ++ [nl]) [];
        Printf (rule_eq ++ [nl]) [] ]).
  { unfold search_report. rewrite Hscan. reflexivity. }
  split; [exact Hrep|]. split; [|reflexivity].
  rewrite Hrep. cbn. now rewrite <- app_assoc.
Qed.

Lemma no_match_report_witness :
  (forall m, In m load_movies_hardcoded -> matches m (str "zebra") = false) /\
  search_report insertion_sort load_movies_hardcoded (str "zebra")
  = [ Printf ([nl] ++ rule_eq ++ [nl]) [];
      Printf fmt_header [ArgStr (str "zebra"); ArgInt 0];
      Printf (str "Sorted by popularity rating (descending)" ++ [nl]) [];
      Printf (rule_dash ++ [nl]) [];
      Printf (str "(No matches found)" ++ [nl]) [];
      Printf (rule_eq ++ [nl]) [] ] /\
  render_all (search_report insertion_sort load_movies_hardcoded (str "zebra"))
  = Some ([nl] ++ rule_eq ++ [nl]
          ++ str "Keyword: " ++ [dquote] ++ str "zebra" ++ [dquote]
          ++ str " | Matches: 0" ++ [nl]
          ++ str "Sorted by popularity rating (descending)" ++ [nl]
          ++ rule_dash ++ [nl]
          ++ str "(No matches found)" ++ [nl]
          ++ rule_eq ++ [nl]) /\
  search_movies_and_print insertion_sort load_movies_hardcoded (str "zebra")
  = [Lock]
    ++ map Print (search_report insertion_sort load_movies_hardcoded
                    (str "zebra"))
    ++ [Unlock].
Proof.
  assert (Hno : forall m, In m load_movies_hardcoded ->
                  matches m (str "zebra") = false).
  { apply Forall_forall. repeat constructor. }
  split; [exact Hno|].
  apply (no_match_report insertion_sort load_movies_hardcoded (str "zebra")).
  exact Hno.
Defined.

(** ** The sample search *)

Lemma matches_case_fold (m : Movie) (kw1 kw2 : cstr) :
  case_fold kw1 = case_fold kw2 -> matches m kw1 = matches m kw2.
Proof.
  intros Hcf. unfold matches, contains_keyword_ci.
  rewrite !to_lower_copy_spec. unfold truncate, case_fold in *.
  rewrite <- !firstn_map, Hcf.
  destruct kw1, kw2; try discriminate; reflexivity.
Qed.

Lemma scan_case_fold (g_movies : list Movie) (kw1 kw2 : cstr) :
  case_fold kw1 = case_fold kw2 -> scan g_movies kw1 = scan g_movies kw2.
Proof.
  intros Hcf. rewrite !scan_all_matches. f_equal.
  unfold all_matches. generalize 0.
  induction g_movies as [|m g_movies IH]; intros i; simpl.
  - reflexivity.
  - rewrite (matches_case_fold m kw1 kw2 Hcf), !IH. reflexivity.
Qed.

(** C1, as amended.  On the hardcoded catalog, the search of "dragon",
    in any mix of upper and lower case, yields exactly two records, "How
    to Train Your Dragon" (92.5) and "Dragonheart" (71.0), in this order.
    "The Girl with the Dragon Tattoo" (86.0) is not among them: its
    description does not contain the keyword. *)
Theorem dragon_search (qsort : qsort_fn) (kw : cstr) :
  qsort_contract qsort ->
  case_fold kw = str "dragon" ->
  ranked_titles load_movies_hardcoded
    (search_results qsort load_movies_hardcoded kw)
  = [ (str "How to Train Your Dragon", f32 185 (-1));
      (str "Dragonheart", f32 71 0) ] /\
  matches (movie_at load_movies_hardcoded 9) kw = false /\
  title (movie_at load_movies_hardcoded 9)
  = str "The Girl with the Dragon Tattoo".
Proof.
  intros Hq Hkw.
  assert (Hcf : case_fold kw = case_fold (str "dragon")) by now rewrite Hkw.
  split; [|split; [|reflexivity]].
  - unfold search_results.
    rewrite (scan_case_fold _ _ _ Hcf).
    assert (Hscan : scan load_movies_hardcoded (str "dragon")
                    = [mkResultItem 0 (f32 185 (-1)); mkResultItem 1 (f32 71 0)])
      by (vm_compute; reflexivity).
    rewrite Hscan.
    destruct (Hq cmp_result_desc
                [mkResultItem 0 (f32 185 (-1)); mkResultItem 1 (f32 71 0)])
      as [Hperm Hsorted].
    { apply cmp_result_desc_consistent. repeat constructor. }
    apply Permutation_length_2_inv in Hperm as [-> | E].
    + reflexivity.
    + rewrite E in Hsorted.
      inversion Hsorted as [|? ? _ Hhd]; subst.
      inversion Hhd as [|? ? Hle]; subst.
      vm_compute in Hle. now elim Hle.
  - rewrite (matches_case_fold _ _ _ Hcf). vm_compute. reflexivity.
Qed.

Lemma dragon_search_witness :
  qsort_contract insertion_sort /\
  case_fold (str "DRAGON") = str "dragon" /\
  ranked_titles load_movies_hardcoded
    (search_results insertion_sort load_movies_hardcoded (str "DRAGON"))
  = [ (str "How to Train Your Dragon", f32 185 (-1));
      (str "Dragonheart", f32 71 0) ] /\
  matches (movie_at load_movies_hardcoded 9) (str "DRAGON") = false /\
  title (movie_at load_movies_hardcoded 9)
  = str "The Girl with the Dragon Tattoo".
Proof.
  split; [exact insertion_sort_contract|].
  split; [reflexivity|].
  apply (dragon_search insertion_sort (str "DRAGON")).
  - exact insertion_sort_contract.
  - reflexivity.
Defined.

(** C1 as stated fails: the search of "dragon" does not yield the three
    records of the claim. *)
Lemma three_dragons_refuted :
  ~ (forall qsort : qsort_fn,
       qsort_contract qsort ->
       ranked_titles load_movies_hardcoded
         (search_results qsort load_movies_hardcoded (str "dragon"))
       = [ (str "How to Train Your Dragon", f32 185 (-1));
           (str "The Girl with the Dragon Tattoo", f32 86 0);
           (str "Dragonheart", f32 71 0) ]).
Proof.
  intros H.
  specialize (H insertion_sort insertion_sort_contract).
  vm_compute in H. discriminate H.
Qed.

(** ** Runs of the threads *)

Section Machine.

Lemma nth_error_upd_eq {A : Type} (l : list A) :
  forall n x y, nth_error l n = Some y -> nth_error (upd n x l) n = Some x.
Proof.
  induction l as [|a l IH]; intros [|n] x y H; simpl in *;
    try discriminate; [reflexivity | eauto].
Qed.

Lemma nth_error_upd_neq {A : Type} (l : list A) :
  forall n m x, n <> m -> nth_error (upd n x l) m = nth_error l m.
Proof.
  induction l as [|a l IH]; intros [|n] [|m] x H; simpl;
    try reflexivity; try congruence.
  apply IH. congruence.
Qed.

Lemma map_upd_same {A B : Type} (f : A -> B) (l : list A) :
  forall n x y,
    nth_error l n = Some y -> f x = f y -> map f (upd n x l) = map f l.
Proof.
  induction l as [|a l IH]; intros [|n] x y H E; simpl in *;
    try discriminate.
  - injection H as ->. now rewrite E.
  - f_equal. eauto.
Qed.

(** Replacing one summand. *)
Lemma list_sum_upd {A : Type} (f : A -> nat) (l : list A) :
  forall n x y,
    nth_error l n = Some y ->
    (list_sum (map f (upd n x l)) + f y = list_sum (map f l) + f x)%nat.
Proof.
  induction l as [|a l IH]; intros [|n] x y H; simpl in *;
    try discriminate.
  - injection H as ->. lia.
  - specialize (IH n x y H). lia.
Qed.

Lemma skipn_nth_error {A : Type} (l : list A) :
  forall n x, nth_error l n = Some x -> skipn n l = x :: skipn (S n) l.
Proof.
  induction l as [|a l IH]; intros [|n] x H; simpl in *; try discriminate.
  - now injection H as ->.
  - now apply IH.
Qed.

Lemma firstn_nth_error {A : Type} (l : list A) :
  forall n x, nth_error l n = Some x -> firstn (S n) l = firstn n l ++ [x].
Proof.
  induction l as [|a l IH]; intros [|n] x H; simpl in *; try discriminate.
  - now injection H as ->.
  - f_equal. now apply IH.
Qed.

(** What one step does. *)
Lemma step_thread_inv (t : nat) (s s' : state) :
  step_thread t s = Some s' ->
  exists th i,
    nth_error (threads s) t = Some th /\
    nth_error (code th) (pc th) = Some i /\
    threads s' = upd t (mkThread (code th) (S (pc th))) (threads s) /\
    match i with
    | Lock =>
        mutex s = None /\ mutex s' = Some t /\ sem s' = sem s /\ out s' = out s
    | Unlock => mutex s' = None /\ sem s' = sem s /\ out s' = out s
    | Print it =>
        mutex s' = mutex s /\ sem s' = sem s /\ out s' = out s ++ [(t, it)]
    | SemWait => mutex s' = mutex s /\ sem s = S (sem s') /\ out s' = out s
    | SemPost => mutex s' = mutex s /\ sem s' = S (sem s) /\ out s' = out s
    | Usleep _ => mutex s' = mutex s /\ sem s' = sem s /\ out s' = out s
    end.
Proof.
  unfold step_thread, advance.
  destruct (nth_error (threads s) t) as [th|] eqn:Eth; [|discriminate].
  destruct (nth_error (code th) (pc th)) as [i|] eqn:Ei; [|discriminate].
  intros H. exists th, i.
  destruct i; [destruct (mutex s) eqn:Em| | |destruct (sem s) eqn:Es| |];
    try discriminate; injection H as <-; simpl;
    repeat split; reflexivity || assumption.
Qed.

Lemma reachable_invariant (P : state -> Prop) (s0 : state) :
  P s0 ->
  (forall s s', reachable s0 s -> P s -> step s s' -> P s') ->
  forall s, reachable s0 s -> P s.
Proof.
  intros H0 Hstep s Hr. induction Hr; eauto.
Qed.

Lemma run_reachable (sched : list nat) :
  forall s0 s s', reachable s0 s -> run sched s = Some s' -> reachable s0 s'.
Proof.
  induction sched as [|t sched IH]; intros s0 s s' Hr Hrun; simpl in Hrun.
  - now injection Hrun as <-.
  - destruct (step_thread t s) as [s1|] eqn:E; [|discriminate].
    eapply IH; [|exact Hrun].
    eapply reachable_step; [exact Hr | now exists t].
Qed.

(** *** The code of the threads never changes *)

Lemma step_codes (s s' : state) :
  step s s' -> map code (threads s') = map code (threads s).
Proof.
  intros [t H]. apply step_thread_inv in H as (th & i & Hth & _ & -> & _).
  now apply map_upd_same with (y := th).
Qed.

Lemma reachable_codes (s0 s : state) :
  reachable s0 s -> map code (threads s) = map code (threads s0).
Proof.
  intros Hr. induction Hr as [|s s' _ IH Hs]; [reflexivity|].
  now rewrite (step_codes _ _ Hs).
Qed.

Lemma init_codes (qsort : qsort_fn) (g_movies : list Movie) (K : nat)
    (args : list WorkerArgs) :
  map code (threads (init_state qsort g_movies K args))
  = map (search_worker qsort g_movies) args.
Proof.
  simpl. rewrite map_map. reflexivity.
Qed.

(** Thread [t] of a run of the workers runs [search_worker] on [args[t]]. *)
Lemma reachable_worker (qsort : qsort_fn) (g_movies : list Movie) (K : nat)
    (args : list WorkerArgs) (s : state) (t : nat) (th : thread) :
  reachable (init_state qsort g_movies K args) s ->
  nth_error (threads s) t = Some th ->
  exists wa,
    nth_error args t = Some wa /\ code th = search_worker qsort g_movies wa.
Proof.
  intros Hr Hth.
  pose proof (reachable_codes _ _ Hr) as Hc. rewrite init_codes in Hc.
  assert (H : nth_error (map code (threads s)) t = Some (code th))
    by (rewrite nth_error_map, Hth; reflexivity).
  rewrite Hc, nth_error_map in H.
  destruct (nth_error args t) as [wa|]; [|discriminate].
  injection H as H. now exists wa.
Qed.

End Machine.

(** ** Permits *)

Section Permits.

Lemma filter_skipn_nil {A : Type} (p : A -> bool) (l : list A) :
  forall n, filter p l = [] -> filter p (skipn n l) = [].
Proof.
  induction l as [|a l IH]; intros [|n] H; simpl in *;
    try assumption; try reflexivity.
  apply IH. destruct (p a); [discriminate | exact H].
Qed.

(** The number of elements that satisfy [p] from index [n] on, in a list
    with exactly one of them. *)
Lemma count_skipn_single {A : Type} (p : A -> bool) (pre post : list A)
    (x : A) (n : nat) :
  filter p pre = [] -> filter p post = [] -> p x = true ->
  List.length (filter p (skipn n (pre ++ x :: post)))
  = if (n <=? List.length pre)%nat then 1%nat else 0%nat.
Proof.
  intros Hpre Hpost Hx. rewrite skipn_app, filter_app.
  destruct (Nat.leb_spec n (List.length pre)) as [Hle|Hgt].
  - replace (n - List.length pre)%nat with O by lia.
    rewrite filter_skipn_nil by exact Hpre.
    simpl. now rewrite Hx, Hpost.
  - rewrite filter_skipn_nil by exact Hpre.
    destruct (n - List.length pre)%nat as [|k] eqn:E; [lia|].
    simpl. now rewrite filter_skipn_nil.
Qed.

Lemma filter_map_Print (p : instr -> bool) (items : list out_item) :
  (forall it, p (Print it) = false) -> filter p (map Print items) = [].
Proof.
  intros Hp. induction items as [|it items IH]; simpl.
  - reflexivity.
  - now rewrite Hp.
Qed.

Variable qsort : qsort_fn.
Variable g_movies : list Movie.

Lemma search_worker_length (wa : WorkerArgs) :
  List.length (search_worker qsort g_movies wa)
  = (14 + List.length (search_report qsort g_movies (keyword wa)))%nat.
Proof.
  unfold search_worker, search_movies_and_print.
  rewrite !length_app, length_map. simpl. lia.
Qed.

Lemma worker_waits_left (wa : WorkerArgs) (n : nat) :
  waits_left (mkThread (search_worker qsort g_movies wa) n)
  = if (n <=? 3)%nat then 1%nat else 0%nat.
Proof.
  unfold waits_left. cbn [code pc].
  change (search_worker qsort g_movies wa)
    with ([Lock; Print (log_waiting wa); Unlock]
          ++ SemWait
             :: [Lock; Print (log_acquired wa); Unlock; Usleep 200000]
                ++ search_movies_and_print qsort g_movies (keyword wa)
                ++ worker_epilogue wa).
  rewrite count_skipn_single; try reflexivity.
  unfold search_movies_and_print.
  rewrite !filter_app, filter_map_Print by reflexivity.
  reflexivity.
Qed.

Lemma worker_posts_left (wa : WorkerArgs) (n : nat) :
  posts_left (mkThread (search_worker qsort g_movies wa) n)
  = if (n <? List.length (search_worker qsort g_movies wa))%nat
    then 1%nat else 0%nat.
Proof.
  unfold posts_left. cbn [code pc].
  pose (body := worker_prologue wa
                ++ search_movies_and_print qsort g_movies (keyword wa)
                ++ [Lock; Print (log_finished wa); Unlock]).
  assert (E : search_worker qsort g_movies wa = body ++ SemPost :: []).
  { unfold body, search_worker, worker_epilogue.
    rewrite <- !app_assoc. reflexivity. }
  assert (Hbody : filter is_sem_post body = []).
  { unfold body, search_movies_and_print.
    rewrite !filter_app, filter_map_Print by reflexivity.
    reflexivity. }
  rewrite E, length_app. clearbody body.
  rewrite count_skipn_single by (reflexivity || exact Hbody).
  cbn [List.length].
  destruct (Nat.leb_spec n (List.length body)),
    (Nat.ltb_spec n (List.length body + 1)); try reflexivity; lia.
Qed.

(** A worker holds a permit from the return of [sem_wait] to its call of
    [sem_post]. *)
Lemma worker_holds_permit (wa : WorkerArgs) (n : nat) :
  holds_permit (mkThread (search_worker qsort g_movies wa) n)
  = ((4 <=? n) && (n <? List.length (search_worker qsort g_movies wa)))%nat.
Proof.
  unfold holds_permit. rewrite worker_waits_left, worker_posts_left.
  pose proof (search_worker_length wa) as Hlen.
  destruct (Nat.leb_spec n 3), (Nat.leb_spec 4 n),
    (Nat.ltb_spec n (List.length (search_worker qsort g_movies wa)));
    try reflexivity; lia.
Qed.

Lemma worker_permit_count (wa : WorkerArgs) (n : nat) :
  (waits_left (mkThread (search_worker qsort g_movies wa) n)
   + (if holds_permit (mkThread (search_worker qsort g_movies wa) n)
      then 1 else 0)
   = posts_left (mkThread (search_worker qsort g_movies wa) n))%nat.
Proof.
  rewrite worker_holds_permit, worker_waits_left, worker_posts_left.
  pose proof (search_worker_length wa) as Hlen.
  destruct (Nat.leb_spec n 3), (Nat.leb_spec 4 n),
    (Nat.ltb_spec n (List.length (search_worker qsort g_movies wa)));
    simpl; lia.
Qed.

Lemma worker_phase_holds (wa : WorkerArgs) (n : nat) :
  searching_or_reporting (mkThread (search_worker qsort g_movies wa) n) = true ->
  holds_permit (mkThread (search_worker qsort g_movies wa) n) = true.
Proof.
  rewrite worker_holds_permit.
  unfold searching_or_reporting, phase_of. cbn [code pc].
  pose proof (search_worker_length wa) as Hlen.
  destruct (Nat.ltb_spec n 4), (Nat.ltb_spec n 7), (Nat.ltb_spec n 9),
    (Nat.ltb_spec n (List.length (search_worker qsort g_movies wa) - 4));
    try discriminate; intros _;
    apply andb_true_iff; split;
    try (apply Nat.leb_le; lia); apply Nat.ltb_lt; lia.
Qed.

(** One step moves a permit between the pool and a thread, or leaves
    both alone. *)
Lemma step_permits (s s' : state) :
  step s s' ->
  (sem s' + list_sum (map posts_left (threads s'))
   + list_sum (map waits_left (threads s))
   = sem s + list_sum (map posts_left (threads s))
     + list_sum (map waits_left (threads s')))%nat.
Proof.
  intros [t H]. apply step_thread_inv in H as (th & i & Hth & Hi & -> & Heff).
  pose proof (list_sum_upd posts_left (threads s) t
                (mkThread (code th) (S (pc th))) th Hth) as HP.
  pose proof (list_sum_upd waits_left (threads s) t
                (mkThread (code th) (S (pc th))) th Hth) as HW.
  unfold posts_left, waits_left in HP, HW. cbn [code pc] in HP, HW.
  rewrite (skipn_nth_error _ _ _ Hi) in HP, HW.
  unfold posts_left, waits_left.
  destruct i; simpl in HP, HW; lia.
Qed.

End Permits.

Section Admission.

Variable qsort : qsort_fn.
Variable g_movies : list Movie.
Variable K : nat.
Variable args : list WorkerArgs.

Lemma init_permits :
  list_sum (map posts_left (threads (init_state qsort g_movies K args)))
  = list_sum (map waits_left (threads (init_state qsort g_movies K args))).
Proof.
  unfold init_state. cbn [threads]. rewrite !map_map.
  induction args as [|wa l IH]; cbn [map list_sum fold_right].
  - reflexivity.
  - unfold list_sum in IH.
    rewrite IH, worker_posts_left, worker_waits_left, search_worker_length.
    reflexivity.
Qed.

(** The permits in the pool and the calls of [sem_post] still to come
    make up the capacity and the calls of [sem_wait] still to come. *)
Lemma permit_balance (s : state) :
  reachable (init_state qsort g_movies K args) s ->
  (sem s + list_sum (map posts_left (threads s))
   = K + list_sum (map waits_left (threads s)))%nat.
Proof.
  intros Hr. induction Hr as [|s s' _ IH Hs].
  - rewrite init_permits. reflexivity.
  - pose proof (step_permits s s' Hs). lia.
Qed.

Lemma reachable_thread_worker (s : state) (th : thread) :
  reachable (init_state qsort g_movies K args) s ->
  In th (threads s) ->
  exists wa, th = mkThread (search_worker qsort g_movies wa) (pc th).
Proof.
  intros Hr Hin. apply In_nth_error in Hin as [t Ht].
  destruct (reachable_worker qsort g_movies K args s t th Hr Ht)
    as (wa & _ & Hc).
  exists wa. destruct th as [c n]. simpl in *. now subst.
Qed.

Lemma permits_sum (l : list thread) :
  (forall th, In th l ->
     (waits_left th + (if holds_permit th then 1 else 0) = posts_left th)%nat) ->
  (list_sum (map posts_left l)
   = list_sum (map waits_left l) + List.length (filter holds_permit l))%nat.
Proof.
  induction l as [|th l IH]; intros H; simpl.
  - reflexivity.
  - rewrite IH by (intros; apply H; now right).
    specialize (H th (or_introl eq_refl)).
    destruct (holds_permit th); simpl; lia.
Qed.

(** Every permit is in the pool or held by a worker. *)
Lemma permit_accounting (s : state) :
  reachable (init_state qsort g_movies K args) s ->
  (sem s + permits_held s = K)%nat.
Proof.
  intros Hr. pose proof (permit_balance s Hr) as Hb.
  unfold permits_held.
  rewrite (permits_sum (threads s)) in Hb; [lia|].
  intros th Hin.
  destruct (reachable_thread_worker s th Hr Hin) as [wa ->].
  apply worker_permit_count.
Qed.

Lemma filter_length_le {A : Type} (p q : A -> bool) (l : list A) :
  (forall x, In x l -> p x = true -> q x = true) ->
  (List.length (filter p l) <= List.length (filter q l))%nat.
Proof.
  induction l as [|a l IH]; intros H; simpl.
  - lia.
  - assert (IH' := IH (fun x Hx => H x (or_intror Hx))).
    destruct (p a) eqn:Ep.
    + rewrite (H a (or_introl eq_refl) Ep). simpl. lia.
    + destruct (q a); simpl; lia.
Qed.

Lemma holds_while_searching (s : state) (th : thread) :
  reachable (init_state qsort g_movies K args) s ->
  In th (threads s) ->
  searching_or_reporting th = true -> holds_permit th = true.
Proof.
  intros Hr Hin.
  destruct (reachable_thread_worker s th Hr Hin) as [wa ->].
  apply worker_phase_holds.
Qed.

(** When every worker has returned, no permit is held. *)
Lemma returned_pool_full (s : state) :
  reachable (init_state qsort g_movies K args) s ->
  all_returned s = true -> sem s = K.
Proof.
  intros Hr Hall.
  pose proof (permit_accounting s Hr) as Hacc.
  assert (Hnone : permits_held s = 0%nat).
  { unfold permits_held, all_returned in *.
    rewrite forallb_forall in Hall.
    assert (Hf : forall th, In th (threads s) -> holds_permit th = false).
    { intros th Hin.
      destruct (reachable_thread_worker s th Hr Hin) as [wa E].
      specialize (Hall th Hin). rewrite E in Hall |- *.
      rewrite worker_holds_permit.
      unfold returned in Hall. cbn [code pc] in Hall.
      apply Nat.leb_le in Hall.
      apply andb_false_iff. right. apply Nat.ltb_ge. exact Hall. }
    clear - Hf.
    induction (threads s) as [|th l IH]; simpl.
    - reflexivity.
    - rewrite (Hf th) by now left.
      apply IH. intros; apply Hf; now right. }
  lia.
Qed.

End Admission.

(** C2.  For every capacity [K] and every set of workers, in every state
    of every run: a worker in the state Searching or Reporting holds a
    permit, which it took by [sem_wait] before and keeps until its
    [sem_post]; the permits held and those left in the pool add up to
    [K]; so at most [K] workers are in Searching or Reporting. *)
Theorem admission_bound (qsort : qsort_fn) (g_movies : list Movie) (K : nat)
    (args : list WorkerArgs) (s : state) :
  reachable (init_state qsort g_movies K args) s ->
  (forall th, In th (threads s) ->
     searching_or_reporting th = true -> holds_permit th = true) /\
  (sem s + permits_held s = K)%nat /\
  (List.length (filter searching_or_reporting (threads s)) <= K)%nat.
Proof.
  intros Hr.
  pose proof (permit_accounting qsort g_movies K args s Hr) as Hacc.
  assert (Hh : forall th, In th (threads s) ->
                 searching_or_reporting th = true -> holds_permit th = true)
    by (intros th; now apply (holds_while_searching qsort g_movies K args)).
  split; [exact Hh|]. split; [exact Hacc|].
  pose proof (filter_length_le searching_or_reporting holds_permit
                (threads s) Hh) as Hle.
  unfold permits_held in Hacc. lia.
Qed.

Lemma try_step_reachable (s0 s : state) (t : nat) :
  reachable s0 s -> reachable s0 (try_step s t).
Proof.
  intros Hr. unfold try_step.
  destruct (step_thread t s) as [s'|] eqn:E; [|exact Hr].
  eapply reachable_step; [exact Hr | now exists t].
Qed.

Lemma sweep_reachable (s0 s : state) :
  reachable s0 s -> reachable s0 (sweep s).
Proof.
  unfold sweep. generalize (seq 0 (List.length (threads s))) as l.
  intros l. revert s.
  induction l as [|t l IH]; intros s Hr; simpl.
  - exact Hr.
  - apply IH, try_step_reachable, Hr.
Qed.

Lemma sweeps_reachable (n : nat) :
  forall s0 s, reachable s0 s -> reachable s0 (sweeps n s).
Proof.
  induction n as [|n IH]; intros s0 s Hr; simpl.
  - exact Hr.
  - apply IH, sweep_reachable, Hr.
Qed.

Lemma admission_bound_witness :
  reachable (main_init insertion_sort) (sweeps 40 (main_init insertion_sort)) /\
  (forall th, In th (threads (sweeps 40 (main_init insertion_sort))) ->
     searching_or_reporting th = true -> holds_permit th = true) /\
  (sem (sweeps 40 (main_init insertion_sort))
   + permits_held (sweeps 40 (main_init insertion_sort)) = 5)%nat /\
  (List.length (filter searching_or_reporting
                  (threads (sweeps 40 (main_init insertion_sort)))) <= 5)%nat.
Proof.
  assert (Hr : reachable (main_init insertion_sort)
                 (sweeps 40 (main_init insertion_sort)))
    by apply sweeps_reachable, reachable_refl.
  split; [exact Hr|].
  apply (admission_bound insertion_sort load_movies_hardcoded 5 main_args
           (sweeps 40 (main_init insertion_sort))).
  exact Hr.
Defined.

(** In that state of the run of [main] five workers hold the permits,
    four of them in Searching or Reporting, and the sixth waits. *)
Example main_run_five_permits :
  sem (sweeps 40 (main_init insertion_sort)) = 0%nat /\
  permits_held (sweeps 40 (main_init insertion_sort)) = 5%nat /\
  map phase_of (threads (sweeps 40 (main_init insertion_sort)))
  = [Done; Reporting; Searching; Searching; Searching;
     Waiting; Waiting; Waiting] /\
  step_thread 5 (sweeps 40 (main_init insertion_sort)) = None.
Proof. vm_compute. repeat split. Qed.

(** ** The print mutex *)

Section Mutex.

Lemma locked_after_app (l1 l2 : list instr) :
  forall b, locked_after b (l1 ++ l2) = locked_after (locked_after b l1) l2.
Proof.
  induction l1 as [|i l1 IH]; intros b; simpl.
  - reflexivity.
  - destruct i; apply IH.
Qed.

(** Under the locking discipline, the kind of the next call tells whether
    the thread is in a section. *)
Lemma well_locked_nth (c : list instr) :
  forall b n i,
    well_locked b c = true ->
    nth_error c n = Some i ->
    locked_after b (firstn n c)
    = match i with
      | Unlock | Print _ => true
      | _ => false
      end.
Proof.
  induction c as [|a c IH]; intros b [|n] i Hw Hn; simpl in Hn;
    try discriminate.
  - injection Hn as ->. simpl.
    destruct i, b; simpl in Hw; try discriminate; reflexivity.
  - simpl firstn.
    destruct a, b; simpl in Hw |- *; try discriminate; now apply IH.
Qed.

Lemma well_locked_end (c : list instr) :
  forall b, well_locked b c = true -> locked_after b c = false.
Proof.
  induction c as [|a c IH]; intros b Hw; simpl in *.
  - now destruct b.
  - destruct a, b; simpl in Hw; try discriminate; now apply IH.
Qed.

Lemma well_locked_Print_app (items : list out_item) (c : list instr) :
  well_locked true (map Print items ++ c) = well_locked true c.
Proof.
  induction items as [|it items IH]; simpl; [reflexivity | exact IH].
Qed.

Variable qsort : qsort_fn.
Variable g_movies : list Movie.

Lemma search_worker_well_locked (wa : WorkerArgs) :
  well_locked false (search_worker qsort g_movies wa) = true.
Proof.
  unfold search_worker, search_movies_and_print, worker_prologue.
  rewrite <- !app_assoc. cbn [app well_locked negb andb].
  rewrite well_locked_Print_app. reflexivity.
Qed.

Lemma in_section_next (c : list instr) (n : nat) (i : instr) :
  nth_error c n = Some i ->
  in_section (mkThread c (S n))
  = locked_after (in_section (mkThread c n)) [i].
Proof.
  intros Hn. unfold in_section. cbn [code pc].
  now rewrite (firstn_nth_error _ _ _ Hn), locked_after_app.
Qed.

Variable K : nat.
Variable args : list WorkerArgs.

(** The thread that holds the mutex is the one thread in a section. *)
Lemma mutex_owner (s : state) :
  reachable (init_state qsort g_movies K args) s ->
  forall t th,
    nth_error (threads s) t = Some th ->
    (in_section th = true <-> mutex s = Some t).
Proof.
  intros Hr. pattern s. revert s Hr. apply reachable_invariant.
  - intros t th Hth. simpl in *. rewrite nth_error_map in Hth.
    destruct (nth_error args t); [|discriminate].
    injection Hth as <-. unfold in_section. simpl. split; discriminate.
  - intros s s' Hr Hinv [t0 Hstep] t th Hth.
    apply step_thread_inv in Hstep as (th0 & i & Hth0 & Hi & Hths & Heff).
    destruct (reachable_worker qsort g_movies K args s t0 th0 Hr Hth0)
      as (wa0 & _ & Hc0).
    pose proof (search_worker_well_locked wa0) as Hw. rewrite <- Hc0 in Hw.
    pose proof (well_locked_nth _ _ _ _ Hw Hi) as Hsec0.
    fold (in_section th0) in Hsec0.
    pose proof (Hinv t0 th0 Hth0) as Hown0.
    rewrite Hths in Hth.
    destruct (Nat.eq_dec t0 t) as [<-|Hneq].
    + rewrite (nth_error_upd_eq _ _ _ _ Hth0) in Hth. injection Hth as <-.
      rewrite (in_section_next _ _ _ Hi).
      change (in_section {| code := code th0; pc := pc th0 |})
        with (in_section th0).
      rewrite Hsec0.
      assert (Hout : in_section th0 = false ->
                mutex s' = mutex s ->
                (false = true <-> mutex s' = Some t0)).
      { intros Hf Hm. rewrite Hm.
        split; [discriminate | intros E; apply Hown0 in E; congruence]. }
      destruct i; simpl in Hsec0 |- *.
      * destruct Heff as (_ & Hm & _). rewrite Hm. split; reflexivity.
      * destruct Heff as (Hm & _). rewrite Hm. split; discriminate.
      * destruct Heff as (Hm & _). rewrite Hm.
        split; [intros _; now apply Hown0 | reflexivity].
      * destruct Heff as (Hm & _). now apply Hout.
      * destruct Heff as (Hm & _). now apply Hout.
      * destruct Heff as (Hm & _). now apply Hout.
    + rewrite nth_error_upd_neq in Hth by exact Hneq.
      pose proof (Hinv t th Hth) as Hown.
      rewrite Hown.
      destruct i; simpl in Hsec0.
      * destruct Heff as (Hm & Hm' & _). rewrite Hm, Hm'.
        split; [discriminate | intros E; injection E as E; contradiction].
      * destruct Heff as (Hm' & _). rewrite Hm'.
        apply Hown0 in Hsec0. rewrite Hsec0.
        split; [intros E; injection E as E; contradiction | discriminate].
      * destruct Heff as (Hm' & _). now rewrite Hm'.
      * destruct Heff as (Hm' & _). now rewrite Hm'.
      * destruct Heff as (Hm' & _). now rewrite Hm'.
      * destruct Heff as (Hm' & _). now rewrite Hm'.
Qed.

End Mutex.

(** ** The report sink *)

Section Report.

Variable qsort : qsort_fn.
Variable g_movies : list Movie.

Lemma search_worker_split (wa : WorkerArgs) :
  search_worker qsort g_movies wa
  = (worker_prologue wa ++ [Lock])
    ++ map Print (search_report qsort g_movies (keyword wa))
    ++ Unlock :: worker_epilogue wa.
Proof.
  unfold search_worker, search_movies_and_print.
  rewrite <- !app_assoc. reflexivity.
Qed.

(** Where the calls that bound the states of a worker stand. *)
Lemma search_worker_layout (wa : WorkerArgs) :
  let c := search_worker qsort g_movies wa in
  let n := List.length (search_report qsort g_movies (keyword wa)) in
  nth_error c 3 = Some SemWait /\
  nth_error c 7 = Some (Usleep 200000) /\
  nth_error c 8 = Some Lock /\
  nth_error c (9 + n) = Some Unlock /\
  nth_error c (13 + n) = Some SemPost /\
  List.length c = (14 + n)%nat.
Proof.
  cbv zeta.
  assert (Hp : List.length (worker_prologue wa ++ [Lock]) = 9%nat)
    by reflexivity.
  repeat split; try reflexivity.
  - rewrite search_worker_split.
    rewrite nth_error_app2 by (rewrite Hp; lia).
    rewrite nth_error_app2 by (rewrite length_map, Hp; lia).
    rewrite length_map, Hp.
    replace (9 + List.length (search_report qsort g_movies (keyword wa)) - 9
             - List.length (search_report qsort g_movies (keyword wa)))%nat
      with 0%nat by lia.
    reflexivity.
  - rewrite search_worker_split.
    rewrite nth_error_app2 by (rewrite Hp; lia).
    rewrite nth_error_app2 by (rewrite length_map, Hp; lia).
    rewrite length_map, Hp.
    replace (13 + List.length (search_report qsort g_movies (keyword wa)) - 9
             - List.length (search_report qsort g_movies (keyword wa)))%nat
      with 4%nat by lia.
    reflexivity.
  - apply search_worker_length.
Qed.

(** The calls at the indices 9 to [9 + n - 1] print the [n] lines of the
    report. *)
Lemma worker_report_instr (wa : WorkerArgs) (n : nat) (i : instr) :
  nth_error (search_worker qsort g_movies wa) n = Some i ->
  (9 <= n < 9 + List.length (search_report qsort g_movies (keyword wa)))%nat ->
  exists it,
    i = Print it /\
    nth_error (search_report qsort g_movies (keyword wa)) (n - 9) = Some it.
Proof.
  intros Hn Hrange. rewrite search_worker_split in Hn.
  assert (Hp : List.length (worker_prologue wa ++ [Lock]) = 9%nat)
    by reflexivity.
  rewrite nth_error_app2 in Hn by (rewrite Hp; lia).
  rewrite Hp in Hn.
  rewrite nth_error_app1 in Hn by (rewrite length_map; lia).
  rewrite nth_error_map in Hn.
  destruct (nth_error (search_report qsort g_movies (keyword wa)) (n - 9))
    as [it|]; [|discriminate].
  injection Hn as <-. now exists it.
Qed.

Lemma worker_report_section (wa : WorkerArgs) (n : nat) :
  (9 <= n <= 9 + List.length (search_report qsort g_movies (keyword wa)))%nat ->
  in_section (mkThread (search_worker qsort g_movies wa) n) = true.
Proof.
  intros Hrange.
  assert (Hi : exists i,
             nth_error (search_worker qsort g_movies wa) n = Some i /\
             match i with Unlock | Print _ => True | _ => False end).
  { rewrite search_worker_split.
    assert (Hp : List.length (worker_prologue wa ++ [Lock]) = 9%nat)
      by reflexivity.
    rewrite nth_error_app2 by (rewrite Hp; lia).
    rewrite Hp.
    destruct (Nat.lt_ge_cases (n - 9)
                (List.length (search_report qsort g_movies (keyword wa))))
      as [Hlt|Hge].
    - rewrite nth_error_app1 by (rewrite length_map; exact Hlt).
      rewrite nth_error_map.
      destruct (nth_error (search_report qsort g_movies (keyword wa)) (n - 9))
        as [it|] eqn:E.
      + exists (Print it). now split.
      + apply nth_error_None in E. lia.
    - rewrite nth_error_app2 by (rewrite length_map; exact Hge).
      rewrite length_map.
      replace (n - 9 - List.length (search_report qsort g_movies (keyword wa)))%nat
        with O by lia.
      exists Unlock. now split. }
  destruct Hi as (i & Hn & Hkind).
  unfold in_section. cbn [code pc].
  rewrite (well_locked_nth _ _ _ _ (search_worker_well_locked qsort g_movies wa) Hn).
  destruct i; try contradiction; reflexivity.
Qed.

Variable K : nat.
Variable args : list WorkerArgs.

(** The lines of its report a worker has printed stand together in the
    output, and nothing follows them before the section ends. *)
Lemma report_contiguous (s : state) :
  reachable (init_state qsort g_movies K args) s ->
  forall t th wa,
    nth_error (threads s) t = Some th ->
    code th = search_worker qsort g_movies wa ->
    exists pre post,
      out s
      = pre
        ++ tagged t (firstn (lines_printed th)
                       (search_report qsort g_movies (keyword wa)))
        ++ post /\
      ((pc th <= 9 + List.length (search_report qsort g_movies (keyword wa)))%nat ->
       post = []).
Proof.
  intros Hr. pattern s. revert s Hr. apply reachable_invariant.
  - intros t th wa Hth Hc. simpl in Hth. rewrite nth_error_map in Hth.
    destruct (nth_error args t); [|discriminate].
    injection Hth as <-. exists [], []. split; reflexivity.
  - intros s s' Hr Hinv [t0 Hstep] t th wa Hth Hc.
    apply step_thread_inv in Hstep as (th0 & i & Hth0 & Hi & Hths & Heff).
    assert (Hout : out s' = out s \/
                   exists it, i = Print it /\ out s' = out s ++ [(t0, it)]).
    { destruct i; try (left; now apply Heff).
      right. exists it. split; [reflexivity | now apply Heff]. }
    rewrite Hths in Hth. unfold lines_printed, report_start in *.
    destruct (Nat.eq_dec t0 t) as [<-|Hneq].
    + rewrite (nth_error_upd_eq _ _ _ _ Hth0) in Hth. injection Hth as <-.
      cbn [code pc] in *.
      destruct (Hinv t0 th0 wa Hth0 Hc) as (pre & post & Ho & Hpost).
      destruct (Nat.le_gt_cases (S (pc th0)) 9) as [Hlow|Hhigh].
      * exists (out s'), []. split; [|reflexivity].
        replace (S (pc th0) - 9)%nat with O by lia.
        simpl. now rewrite app_nil_r.
      * destruct (Nat.lt_ge_cases (pc th0) (9 + List.length (search_report qsort g_movies (keyword wa))))
          as [Hin|Hpast].
        -- rewrite Hc in Hi.
           destruct (worker_report_instr wa (pc th0) i Hi) as (it & -> & Hnth);
             [lia|].
           destruct Heff as (_ & _ & Ho').
           rewrite (Hpost ltac:(lia)) in Ho.
           exists pre, []. split; [|reflexivity].
           replace (S (pc th0) - 9)%nat with (S (pc th0 - 9)) by lia.
           rewrite (firstn_nth_error _ _ _ Hnth).
           unfold tagged in *. rewrite map_app, Ho', Ho. simpl.
           now rewrite !app_nil_r, <- app_assoc.
        -- rewrite firstn_all2 in Ho |- * by lia.
           destruct Hout as [E | (it & _ & E)]; rewrite E, Ho.
           ++ exists pre, post. split; [reflexivity | lia].
           ++ exists pre, (post ++ [(t0, it)]).
              split; [now rewrite <- !app_assoc | lia].
    + rewrite nth_error_upd_neq in Hth by exact Hneq.
      destruct (Hinv t th wa Hth Hc) as (pre & post & Ho & Hpost).
      destruct Hout as [E | (it & -> & E)].
      * exists pre, post. rewrite E. now split.
      * destruct (Nat.le_gt_cases (pc th) 9) as [Hlow|Hhigh].
        -- exists (out s'), []. split; [|reflexivity].
           replace (pc th - 9)%nat with O by lia.
           simpl. now rewrite app_nil_r.
        -- destruct (Nat.le_gt_cases (pc th) (9 + List.length (search_report qsort g_movies (keyword wa))))
             as [Hin|Hpast].
           ++ exfalso. apply Hneq.
              assert (Hsec : in_section th = true).
              { destruct th as [c n]. cbn [code pc] in *. subst c.
                apply worker_report_section. lia. }
              apply (mutex_owner qsort g_movies K args s Hr t th Hth) in Hsec.
              destruct (reachable_worker qsort g_movies K args s t0 th0 Hr Hth0)
                as (wa0 & _ & Hc0).
              pose proof (search_worker_well_locked qsort g_movies wa0) as Hw.
              rewrite <- Hc0 in Hw.
              pose proof (well_locked_nth _ _ _ _ Hw Hi) as Hsec0.
              fold (in_section th0) in Hsec0. cbn in Hsec0.
              apply (mutex_owner qsort g_movies K args s Hr t0 th0 Hth0) in Hsec0.
              congruence.
           ++ exists pre, (post ++ [(t0, it)]).
              rewrite E, Ho. split; [now rewrite <- !app_assoc | lia].
Qed.

End Report.

(** C8.  In every state of every run, the lines a worker has printed of
    its report block stand together in the output, in their order, and as
    long as the block is unfinished nothing follows them: no call of
    another thread falls between the lines of a block.  Once the worker
    is past its report, the whole block, header, body and footer, is a
    contiguous part of the output. *)
Theorem report_block_atomic (qsort : qsort_fn) (g_movies : list Movie)
    (K : nat) (args : list WorkerArgs) (s : state) (t : nat) (th : thread)
    (wa : WorkerArgs) :
  reachable (init_state qsort g_movies K args) s ->
  nth_error (threads s) t = Some th ->
  nth_error args t = Some wa ->
  (exists pre post,
     out s
     = pre
       ++ tagged t (firstn (lines_printed th)
                      (search_report qsort g_movies (keyword wa)))
       ++ post /\
     (phase_of th <> Done -> post = [])) /\
  (phase_of th = Done ->
   exists pre post,
     out s
     = pre ++ tagged t (search_report qsort g_movies (keyword wa)) ++ post).
Proof.
  intros Hr Hth Hwa.
  destruct (reachable_worker qsort g_movies K args s t th Hr Hth)
    as (wa' & Hwa' & Hc).
  assert (wa' = wa) by congruence. subst wa'.
  destruct (report_contiguous qsort g_movies K args s Hr t th wa Hth Hc)
    as (pre & post & Ho & Hpost).
  pose proof (search_worker_length qsort g_movies wa) as Hlen.
  rewrite <- Hc in Hlen.
  split.
  - exists pre, post. split; [exact Ho|].
    intros Hph. apply Hpost.
    unfold phase_of in Hph. rewrite Hlen in Hph.
    destruct (Nat.ltb_spec (pc th) 4); [lia|].
    destruct (Nat.ltb_spec (pc th) 7); [lia|].
    destruct (Nat.ltb_spec (pc th) 9); [lia|].
    destruct (Nat.ltb_spec (pc th)
                (14 + List.length (search_report qsort g_movies (keyword wa)) - 4));
      [lia | congruence].
  - intros Hph. exists pre, post.
    rewrite Ho. unfold lines_printed, report_start.
    rewrite firstn_all2; [reflexivity|].
    unfold phase_of in Hph. rewrite Hlen in Hph.
    destruct (Nat.ltb_spec (pc th) 4); [discriminate|].
    destruct (Nat.ltb_spec (pc th) 7); [discriminate|].
    destruct (Nat.ltb_spec (pc th) 9); [discriminate|].
    destruct (Nat.ltb_spec (pc th)
                (14 + List.length (search_report qsort g_movies (keyword wa)) - 4));
      [discriminate | lia].
Qed.

Lemma report_block_atomic_witness :
  reachable (main_init insertion_sort) (sweeps 40 (main_init insertion_sort)) /\
  nth_error (threads (sweeps 40 (main_init insertion_sort))) 0
  = Some (mkThread (search_worker insertion_sort load_movies_hardcoded
                      (mkWorkerArgs (str "dragon") 1)) 17) /\
  nth_error main_args 0 = Some (mkWorkerArgs (str "dragon") 1) /\
  (exists pre post,
     out (sweeps 40 (main_init insertion_sort))
     = pre
       ++ tagged 0
            (firstn
               (lines_printed
                  (mkThread (search_worker insertion_sort load_movies_hardcoded
                               (mkWorkerArgs (str "dragon") 1)) 17))
               (search_report insertion_sort load_movies_hardcoded
                  (keyword (mkWorkerArgs (str "dragon") 1))))
       ++ post /\
     (phase_of (mkThread (search_worker insertion_sort load_movies_hardcoded
                            (mkWorkerArgs (str "dragon") 1)) 17) <> Done ->
      post = [])) /\
  (phase_of (mkThread (search_worker insertion_sort load_movies_hardcoded
                         (mkWorkerArgs (str "dragon") 1)) 17) = Done ->
   exists pre post,
     out (sweeps 40 (main_init insertion_sort))
     = pre
       ++ tagged 0 (search_report insertion_sort load_movies_hardcoded
                      (keyword (mkWorkerArgs (str "dragon") 1)))
       ++ post).
Proof.
  assert (Hr : reachable (main_init insertion_sort)
                 (sweeps 40 (main_init insertion_sort)))
    by apply sweeps_reachable, reachable_refl.
  assert (Hth : nth_error (threads (sweeps 40 (main_init insertion_sort))) 0
                = Some (mkThread
                          (search_worker insertion_sort load_movies_hardcoded
                             (mkWorkerArgs (str "dragon") 1)) 17))
    by (vm_compute; reflexivity).
  assert (Hwa : nth_error main_args 0 = Some (mkWorkerArgs (str "dragon") 1))
    by reflexivity.
  split; [exact Hr|]. split; [exact Hth|]. split; [exact Hwa|].
  exact (report_block_atomic insertion_sort load_movies_hardcoded 5 main_args
           (sweeps 40 (main_init insertion_sort)) 0 _ _ Hr Hth Hwa).
Defined.

(** The log lines are printed in sections of their own: in the run of
    [main] the two first log lines of worker 0 have those of the other
    workers between them, while the seven lines of its report follow one
    another. *)
Example log_lines_interleave :
  firstn 20 (map fst (out (sweeps 40 (main_init insertion_sort))))
  = [0; 1; 2; 3; 4; 5; 6; 7; 0; 1; 2; 3; 4; 0; 0; 0; 0; 0; 0; 0]%nat.
Proof. vm_compute. reflexivity. Qed.

(** ** No deadlock *)

Section Progress.

Variable qsort : qsort_fn.
Variable g_movies : list Movie.
Variable K : nat.
Variable args : list WorkerArgs.

Lemma length_upd {A : Type} (l : list A) :
  forall n x, List.length (upd n x l) = List.length l.
Proof.
  induction l as [|a l IH]; intros [|n] x; simpl; auto.
Qed.

Lemma mutex_valid (s : state) :
  reachable (init_state qsort g_movies K args) s ->
  forall t, mutex s = Some t -> (t < List.length (threads s))%nat.
Proof.
  intros Hr. pattern s. revert s Hr. apply reachable_invariant.
  - intros t Hm. discriminate.
  - intros s s' _ Hinv [t0 Hstep] t Hm.
    apply step_thread_inv in Hstep as (th0 & i & Hth0 & Hi & -> & Heff).
    rewrite length_upd.
    assert (Ht0 : (t0 < List.length (threads s))%nat)
      by (apply nth_error_Some; congruence).
    destruct i.
    + destruct Heff as (_ & Hm' & _). congruence.
    + destruct Heff as (Hm' & _). congruence.
    + destruct Heff as (Hm' & _). apply Hinv. congruence.
    + destruct Heff as (Hm' & _). apply Hinv. congruence.
    + destruct Heff as (Hm' & _). apply Hinv. congruence.
    + destruct Heff as (Hm' & _). apply Hinv. congruence.
Qed.

Lemma forallb_false {A : Type} (f : A -> bool) (l : list A) :
  forallb f l = false -> exists x, In x l /\ f x = false.
Proof.
  induction l as [|a l IH]; simpl; [discriminate|].
  destruct (f a) eqn:E.
  - intros H. destruct (IH H) as (x & Hx & Hf). exists x. auto.
  - intros _. exists a. auto.
Qed.

Lemma filter_nonempty {A : Type} (f : A -> bool) (l : list A) :
  (0 < List.length (filter f l))%nat -> exists x, In x l /\ f x = true.
Proof.
  induction l as [|a l IH]; simpl; [lia|].
  destruct (f a) eqn:E.
  - intros _. exists a. auto.
  - intros H. destruct (IH H) as (x & Hx & Hf). exists x. auto.
Qed.

(** While a worker has not returned, some thread can make its next
    call. *)
Lemma progress (s : state) :
  reachable (init_state qsort g_movies K args) s ->
  (0 < K)%nat ->
  all_returned s = false ->
  exists s', step s s'.
Proof.
  intros Hr HK Hall.
  destruct (mutex s) as [t|] eqn:Em.
  - (* the owner of the mutex prints or unlocks *)
    pose proof (mutex_valid s Hr t Em) as Ht.
    destruct (nth_error (threads s) t) as [th|] eqn:Hth;
      [|apply nth_error_None in Hth; lia].
    pose proof (proj2 (mutex_owner qsort g_movies K args s Hr t th Hth) Em)
      as Hsec.
    destruct (reachable_worker qsort g_movies K args s t th Hr Hth)
      as (wa & _ & Hc).
    pose proof (search_worker_well_locked qsort g_movies wa) as Hw.
    rewrite <- Hc in Hw.
    destruct (nth_error (code th) (pc th)) as [i|] eqn:Hi.
    + pose proof (well_locked_nth _ _ _ _ Hw Hi) as Hk.
      fold (in_section th) in Hk. rewrite Hsec in Hk.
      unfold step, step_thread.
      destruct i; try discriminate Hk;
        eexists; exists t; rewrite Hth, Hi; reflexivity.
    + apply nth_error_None in Hi.
      unfold in_section in Hsec. rewrite firstn_all2 in Hsec by exact Hi.
      rewrite (well_locked_end _ _ Hw) in Hsec. discriminate.
  - (* the mutex is free *)
    apply forallb_false in Hall as (th & Hin & Hret).
    apply In_nth_error in Hin as [t Hth].
    unfold returned in Hret. apply Nat.leb_gt in Hret.
    destruct (nth_error (code th) (pc th)) as [i|] eqn:Hi;
      [|apply nth_error_None in Hi; lia].
    assert (Hgo : i <> SemWait \/ (0 < sem s)%nat -> exists s', step s s').
    { intros Hen. unfold step, step_thread.
      destruct i; try (eexists; exists t; rewrite Hth, Hi, ?Em; reflexivity).
      destruct Hen as [Hne|Hpos]; [congruence|].
      destruct (sem s) as [|n] eqn:Es; [lia|].
      eexists; exists t; rewrite Hth, Hi; reflexivity. }
    destruct (sem s) as [|n] eqn:Es; [|apply Hgo; right; lia].
    destruct i; try (apply Hgo; left; discriminate).
    (* this worker waits for a permit: one that holds a permit goes on *)
    pose proof (permit_accounting qsort g_movies K args s Hr) as Hacc.
    destruct (filter_nonempty holds_permit (threads s)) as (th' & Hin' & Hh);
      [unfold permits_held in Hacc; lia|].
    apply In_nth_error in Hin' as [t' Hth'].
    destruct (reachable_worker qsort g_movies K args s t' th' Hr Hth')
      as (wa' & _ & Hc').
    destruct th' as [c' n']. cbn [code] in Hc'. subst c'.
    rewrite worker_holds_permit in Hh.
    apply andb_true_iff in Hh as [Hlo Hhi].
    apply Nat.leb_le in Hlo. apply Nat.ltb_lt in Hhi.
    destruct (nth_error (search_worker qsort g_movies wa') n') as [i'|] eqn:Hi';
      [|apply nth_error_None in Hi'; lia].
    assert (Hnw : i' <> SemWait).
    { intros ->.
      pose proof (worker_waits_left qsort g_movies wa' n') as Hwl.
      unfold waits_left in Hwl. cbn [code pc] in Hwl.
      rewrite (skipn_nth_error _ _ _ Hi') in Hwl. simpl in Hwl.
      destruct (Nat.leb_spec n' 3); [lia | discriminate]. }
    unfold step, step_thread.
    destruct i'; try congruence;
      eexists; exists t'; rewrite Hth'; cbn [code pc]; rewrite Hi', ?Em;
      reflexivity.
Qed.

(** Every call made is one call less to make. *)
Lemma step_calls_left (s s' : state) :
  step s s' -> (calls_left s = S (calls_left s'))%nat.
Proof.
  intros [t H]. unfold calls_left.
  apply step_thread_inv in H as (th & i & Hth & Hi & -> & _).
  pose proof (list_sum_upd (fun th => (List.length (code th) - pc th)%nat)
                (threads s) t (mkThread (code th) (S (pc th))) th Hth) as Hs.
  cbn [code pc] in Hs.
  assert (pc th < List.length (code th))%nat
    by (apply nth_error_Some; congruence).
  lia.
Qed.

Lemma reachable_trans (s0 s1 s2 : state) :
  reachable s0 s1 -> reachable s1 s2 -> reachable s0 s2.
Proof.
  intros H1 H2. induction H2 as [|s s' _ IH Hs]; [exact H1|].
  eapply reachable_step; [exact IH | exact Hs].
Qed.

(** From every state of a run the workers can all return. *)
Lemma workers_can_finish (s : state) :
  reachable (init_state qsort g_movies K args) s ->
  (0 < K)%nat ->
  exists s', reachable s s' /\ all_returned s' = true.
Proof.
  intros Hr HK.
  remember (calls_left s) as n eqn:En. revert s Hr En.
  induction n as [|n IH]; intros s Hr En.
  - destruct (all_returned s) eqn:Hall.
    + exists s. split; [constructor | exact Hall].
    + destruct (progress s Hr HK Hall) as [s' Hs].
      apply step_calls_left in Hs. lia.
  - destruct (all_returned s) eqn:Hall.
    + exists s. split; [constructor | exact Hall].
    + destruct (progress s Hr HK Hall) as [s' Hs].
      destruct (IH s') as (s'' & Hr' & Hall').
      * eapply reachable_step; [exact Hr | exact Hs].
      * apply step_calls_left in Hs. lia.
      * exists s''. split; [|exact Hall'].
        eapply reachable_trans; [|exact Hr'].
        eapply reachable_step; [constructor | exact Hs].
Qed.

End Progress.

(** ** No permit is lost *)

(** C7.  A worker calls [sem_wait] once and [sem_post] once, the latter
    as the last call of its only path; in every state of every run each
    permit is in the pool or held by a worker that has still to post it;
    once all workers have returned the pool holds its initial [K] permits
    again; and, with a capacity above 0, the workers can all return from
    every state of a run. *)
Theorem permits_returned (qsort : qsort_fn) (g_movies : list Movie) (K : nat)
    (args : list WorkerArgs) (s : state) :
  reachable (init_state qsort g_movies K args) s ->
  (forall wa,
     exists pre guarded,
       search_worker qsort g_movies wa = pre ++ [SemWait] ++ guarded ++ [SemPost] /\
       filter is_sem_wait (pre ++ guarded) = [] /\
       filter is_sem_post (pre ++ guarded) = []) /\
  (sem s + permits_held s = K)%nat /\
  (all_returned s = true -> sem s = K) /\
  ((0 < K)%nat ->
   exists s', reachable s s' /\ all_returned s' = true /\ sem s' = K).
Proof.
  intros Hr. split; [|split; [|split]].
  - intros wa.
    exists [Lock; Print (log_waiting wa); Unlock].
    exists ([Lock; Print (log_acquired wa); Unlock; Usleep 200000]
            ++ search_movies_and_print qsort g_movies (keyword wa)
            ++ [Lock; Print (log_finished wa); Unlock]).
    split; [|split].
    + unfold search_worker, worker_prologue, worker_epilogue.
      rewrite <- !app_assoc. reflexivity.
    + unfold search_movies_and_print.
      rewrite !filter_app, filter_map_Print by reflexivity. reflexivity.
    + unfold search_movies_and_print.
      rewrite !filter_app, filter_map_Print by reflexivity. reflexivity.
  - now apply (permit_accounting qsort g_movies K args).
  - now apply (returned_pool_full qsort g_movies K args).
  - intros HK.
    destruct (workers_can_finish qsort g_movies K args s Hr HK)
      as (s' & Hr' & Hall).
    exists s'. split; [exact Hr'|]. split; [exact Hall|].
    apply (returned_pool_full qsort g_movies K args); [|exact Hall].
    eapply reachable_trans; [exact Hr | exact Hr'].
Qed.

Lemma permits_returned_witness :
  reachable (main_init insertion_sort) (sweeps 200 (main_init insertion_sort)) /\
  (forall wa,
     exists pre guarded,
       search_worker insertion_sort load_movies_hardcoded wa
       = pre ++ [SemWait] ++ guarded ++ [SemPost] /\
       filter is_sem_wait (pre ++ guarded) = [] /\
       filter is_sem_post (pre ++ guarded) = []) /\
  (sem (sweeps 200 (main_init insertion_sort))
   + permits_held (sweeps 200 (main_init insertion_sort)) = 5)%nat /\
  (all_returned (sweeps 200 (main_init insertion_sort)) = true ->
   sem (sweeps 200 (main_init insertion_sort)) = 5%nat) /\
  ((0 < 5)%nat ->
   exists s',
     reachable (sweeps 200 (main_init insertion_sort)) s' /\
     all_returned s' = true /\ sem s' = 5%nat).
Proof.
  assert (Hr : reachable (main_init insertion_sort)
                 (sweeps 200 (main_init insertion_sort)))
    by apply sweeps_reachable, reachable_refl.
  split; [exact Hr|].
  apply (permits_returned insertion_sort load_movies_hardcoded 5 main_args
           (sweeps 200 (main_init insertion_sort))).
  exact Hr.
Defined.

(** The run of [main] does end with every worker returned. *)
Example main_run_returns :
  all_returned (sweeps 200 (main_init insertion_sort)) = true /\
  sem (sweeps 200 (main_init insertion_sort)) = 5%nat.
Proof. vm_compute. split; reflexivity. Qed.

(** * Further properties *)

(** ** The lowercase copy and the filter *)

Lemma tolower_idempotent (c : ascii) : tolower (tolower c) = tolower c.
Proof.
  destruct c as [[] [] [] [] [] [] [] []]; reflexivity.
Qed.

Lemma case_fold_idempotent (s : cstr) : case_fold (case_fold s) = case_fold s.
Proof.
  unfold case_fold. rewrite map_map. apply map_ext. apply tolower_idempotent.
Qed.

(** X1.  [to_lower_copy] into a buffer of [dst_sz >= 1] bytes writes the
    lowercase of the first [dst_sz - 1] characters of the source: the
    result has [min (strlen src) (dst_sz - 1)] characters and fits the
    buffer with its terminator. *)
Theorem to_lower_copy_fits (dst_sz : Z) (src : cstr) :
  1 <= dst_sz ->
  to_lower_copy dst_sz src = map tolower (firstn (Z.to_nat (dst_sz - 1)) src) /\
  Z.of_nat (List.length (to_lower_copy dst_sz src))
  = Z.min (Z.of_nat (List.length src)) (dst_sz - 1) /\
  Z.of_nat (List.length (to_lower_copy dst_sz src)) + 1 <= dst_sz.
Proof.
  intros Hsz.
  assert (E : to_lower_copy dst_sz src
              = map tolower (firstn (Z.to_nat (dst_sz - 1)) src))
    by apply to_lower_copy_spec.
  split; [exact E|].
  rewrite E, length_map, length_firstn. lia.
Qed.

Lemma to_lower_copy_fits_witness :
  1 <= MAX_KEYWORD_LEN /\
  to_lower_copy MAX_KEYWORD_LEN (str "Dragon")
  = map tolower (firstn (Z.to_nat (MAX_KEYWORD_LEN - 1)) (str "Dragon")) /\
  Z.of_nat (List.length (to_lower_copy MAX_KEYWORD_LEN (str "Dragon")))
  = Z.min (Z.of_nat (List.length (str "Dragon"))) (MAX_KEYWORD_LEN - 1) /\
  Z.of_nat (List.length (to_lower_copy MAX_KEYWORD_LEN (str "Dragon"))) + 1
  <= MAX_KEYWORD_LEN.
Proof.
  split; [unfold MAX_KEYWORD_LEN; lia|].
  apply (to_lower_copy_fits MAX_KEYWORD_LEN (str "Dragon")).
  unfold MAX_KEYWORD_LEN. lia.
Defined.

(** X2.  The result of [to_lower_copy] holds no letter that [tolower]
    would change, and copying it again into a buffer of the same size
    gives it back. *)
Theorem to_lower_copy_idempotent (dst_sz : Z) (src : cstr) :
  Forall (fun c => tolower c = c) (to_lower_copy dst_sz src) /\
  to_lower_copy dst_sz (to_lower_copy dst_sz src) = to_lower_copy dst_sz src.
Proof.
  rewrite !to_lower_copy_spec. split.
  - apply Forall_forall. intros c Hc.
    unfold case_fold in Hc. apply in_map_iff in Hc as (c0 & <- & _).
    apply tolower_idempotent.
  - unfold truncate at 1.
    rewrite firstn_all2.
    + apply case_fold_idempotent.
    + unfold case_fold, truncate. rewrite length_map, length_firstn. lia.
Qed.

Lemma truncate_nil_iff (size : Z) (s : cstr) :
  2 <= size -> (truncate size s = [] <-> s = []).
Proof.
  intros Hsz. unfold truncate.
  destruct s as [|c s]; [now rewrite firstn_nil|].
  replace (Z.to_nat (size - 1)) with (S (Z.to_nat (size - 2))) by lia.
  simpl. split; discriminate.
Qed.

(** X3.  The result of [contains_keyword_ci] depends on its arguments
    only through the case-folded first 499 characters of the text and
    the case-folded first 63 characters of the keyword: the case of the
    letters and the characters past the cut never matter. *)
Theorem contains_keyword_ci_fold_cut (text1 text2 kw1 kw2 : cstr) :
  case_fold (truncate MAX_DESC_LEN text1)
  = case_fold (truncate MAX_DESC_LEN text2) ->
  case_fold (truncate MAX_KEYWORD_LEN kw1)
  = case_fold (truncate MAX_KEYWORD_LEN kw2) ->
  contains_keyword_ci (Some text1) (Some kw1)
  = contains_keyword_ci (Some text2) (Some kw2).
Proof.
  intros Ht Hk.
  assert (Hnil : kw1 = [] <-> kw2 = []).
  { rewrite <- (truncate_nil_iff MAX_KEYWORD_LEN kw1),
            <- (truncate_nil_iff MAX_KEYWORD_LEN kw2)
      by (unfold MAX_KEYWORD_LEN; lia).
    unfold case_fold in Hk.
    split; intros E; rewrite E in Hk; simpl in Hk.
    - symmetry in Hk. now apply map_eq_nil in Hk.
    - now apply map_eq_nil in Hk. }
  unfold contains_keyword_ci.
  rewrite !to_lower_copy_spec, Ht, Hk.
  destruct kw1 as [|a kw1], kw2 as [|b kw2]; try reflexivity.
  - destruct Hnil as [H _]. specialize (H eq_refl). discriminate.
  - destruct Hnil as [_ H]. specialize (H eq_refl). discriminate.
Qed.

Lemma contains_keyword_ci_fold_cut_witness :
  case_fold (truncate MAX_DESC_LEN (str "A Dragon"))
  = case_fold (truncate MAX_DESC_LEN (str "a dRAGON")) /\
  case_fold (truncate MAX_KEYWORD_LEN (str "DRAG"))
  = case_fold (truncate MAX_KEYWORD_LEN (str "drag")) /\
  contains_keyword_ci (Some (str "A Dragon")) (Some (str "DRAG"))
  = contains_keyword_ci (Some (str "a dRAGON")) (Some (str "drag")).
Proof.
  split; [reflexivity|]. split; [reflexivity|].
  apply (contains_keyword_ci_fold_cut (str "A Dragon") (str "a dRAGON")
           (str "DRAG") (str "drag")); reflexivity.
Defined.

Lemma occurs_in_length (needle hay : cstr) :
  occurs_in needle hay -> (List.length needle <= List.length hay)%nat.
Proof.
  intros (pre & post & ->). rewrite !length_app. lia.
Qed.

Lemma occurs_in_trans (a b c : cstr) :
  occurs_in a b -> occurs_in b c -> occurs_in a c.
Proof.
  intros (p1 & q1 & ->) (p2 & q2 & ->).
  exists (p2 ++ p1), (q1 ++ q2). now rewrite <- !app_assoc.
Qed.

Lemma occurs_in_case_fold (a b : cstr) :
  occurs_in a b -> occurs_in (case_fold a) (case_fold b).
Proof.
  intros (p & q & ->). exists (case_fold p), (case_fold q).
  unfold case_fold. now rewrite !map_app.
Qed.

(** X4.  Narrowing a keyword keeps its matches: when a keyword of at most
    63 characters is found in a text, so is every non-empty substring of
    that keyword. *)
Theorem keyword_substring_matches (text kw kw' : cstr) :
  Z.of_nat (List.length kw) < MAX_KEYWORD_LEN ->
  kw' <> [] ->
  occurs_in kw' kw ->
  contains_keyword_ci (Some text) (Some kw) = true ->
  contains_keyword_ci (Some text) (Some kw') = true.
Proof.
  unfold MAX_KEYWORD_LEN. intros Hlen Hne Hocc Hm.
  pose proof (occurs_in_length _ _ Hocc) as Hl.
  assert (Hkw : kw <> []).
  { intros ->. destruct kw'; [congruence | simpl in Hl; lia]. }
  apply contains_keyword_ci_nonempty in Hm; [|exact Hkw].
  apply contains_keyword_ci_nonempty; [exact Hne|].
  unfold truncate, MAX_KEYWORD_LEN in *.
  rewrite firstn_all2 in Hm |- * by lia.
  eapply occurs_in_trans; [|exact Hm].
  now apply occurs_in_case_fold.
Qed.

Lemma keyword_substring_matches_witness :
  Z.of_nat (List.length (str "dragon")) < MAX_KEYWORD_LEN /\
  str "rag" <> [] /\
  occurs_in (str "rag") (str "dragon") /\
  contains_keyword_ci (Some (str "A Dragon")) (Some (str "dragon")) = true /\
  contains_keyword_ci (Some (str "A Dragon")) (Some (str "rag")) = true.
Proof.
  assert (Hocc : occurs_in (str "rag") (str "dragon"))
    by (exists (str "d"), (str "on"); reflexivity).
  split; [reflexivity|]. split; [discriminate|]. split; [exact Hocc|].
  split; [reflexivity|].
  apply (keyword_substring_matches (str "A Dragon") (str "dragon") (str "rag"));
    [reflexivity | discriminate | exact Hocc | reflexivity].
Defined.

Lemma scan_from_ext (kw1 kw2 : cstr) (movies : list Movie) :
  (forall m, In m movies -> matches m kw1 = matches m kw2) ->
  forall i results,
    scan_from i movies kw1 results = scan_from i movies kw2 results.
Proof.
  induction movies as [|m movies IH]; intros Hext i results;
    cbn [scan_from].
  - reflexivity.
  - change (contains_keyword_ci (Some (description m)) (Some kw1))
      with (matches m kw1).
    change (contains_keyword_ci (Some (description m)) (Some kw2))
      with (matches m kw2).
    rewrite (Hext m) by now left.
    apply IH. intros m' Hm'. apply Hext. now right.
Qed.

(** X5.  The copy of a keyword into [WorkerArgs], cut by [strncpy] to 63
    characters, finds the same records as the keyword itself: the filter
    reads no more than 63 characters of it. *)
Theorem worker_keyword_copy (qsort : qsort_fn) (g_movies : list Movie)
    (kw : cstr) :
  (forall m, matches m (strncpy (MAX_KEYWORD_LEN - 1) kw) = matches m kw) /\
  scan g_movies (strncpy (MAX_KEYWORD_LEN - 1) kw) = scan g_movies kw /\
  search_results qsort g_movies (strncpy (MAX_KEYWORD_LEN - 1) kw)
  = search_results qsort g_movies kw.
Proof.
  assert (Hm : forall m,
             matches m (strncpy (MAX_KEYWORD_LEN - 1) kw) = matches m kw).
  { intros m. unfold matches.
    apply contains_keyword_ci_fold_cut; [reflexivity|].
    unfold truncate, strncpy. rewrite firstn_firstn, Nat.min_id.
    reflexivity. }
  assert (Hs : scan g_movies (strncpy (MAX_KEYWORD_LEN - 1) kw)
               = scan g_movies kw).
  { unfold scan. apply scan_from_ext. intros m _. apply Hm. }
  split; [exact Hm|]. split; [exact Hs|].
  unfold search_results. now rewrite Hs.
Qed.

(** ** The comparison function and the ranking *)

Lemma SFltb_not_nan (x y : float) :
  SFltb x y = true -> is_nan x = false /\ is_nan y = false.
Proof.
  destruct x, y; simpl; try discriminate; auto.
Qed.

Lemma SFltb_asym (x y : float) : SFltb x y = true -> SFltb y x = false.
Proof.
  intros H. destruct (SFltb_not_nan _ _ H) as [Hx Hy].
  destruct (SFltb y x) eqn:E; [|reflexivity].
  exfalso. apply (lex_lt_asym (float_key x) (float_key y)).
  - now apply SFltb_key.
  - now apply SFltb_key.
Qed.

Lemma SFltb_irrefl (x : float) : SFltb x x = false.
Proof.
  destruct (SFltb x x) eqn:E; [|reflexivity].
  pose proof (SFltb_asym _ _ E). congruence.
Qed.

(** X6.  [cmp_result_desc] returns 1 exactly when the first rating is
    below the second and -1 exactly when it is above; it returns nothing
    but -1, 0 and 1; exchanging its arguments negates its result; an
    entry ties with itself; and the indices play no part.  All this holds
    of NaN ratings too. *)
Theorem cmp_result_desc_laws (a b : ResultItem) :
  (cmp_result_desc a b = 1 <-> SFltb (rating a) (rating b) = true) /\
  (cmp_result_desc a b = -1 <-> SFltb (rating b) (rating a) = true) /\
  (cmp_result_desc a b = -1 \/ cmp_result_desc a b = 0 \/
   cmp_result_desc a b = 1) /\
  cmp_result_desc a b = - cmp_result_desc b a /\
  cmp_result_desc a a = 0 /\
  (forall i j,
     cmp_result_desc (mkResultItem i (rating a)) (mkResultItem j (rating b))
     = cmp_result_desc a b).
Proof.
  unfold cmp_result_desc. cbn [rating].
  rewrite SFltb_irrefl.
  destruct (SFltb (rating a) (rating b)) eqn:Eab.
  - rewrite (SFltb_asym _ _ Eab).
    repeat split; intros; try reflexivity; try discriminate; auto.
  - destruct (SFltb (rating b) (rating a)) eqn:Eba;
      repeat split; intros; try reflexivity; try discriminate; auto.
Qed.

(** X7.  On a result array without a NaN rating the comparison function
    defines a total ordering, which is what [qsort] requires of it. *)
Theorem cmp_result_desc_total_order (l : list ResultItem) :
  Forall (fun r => is_nan (rating r) = false) l ->
  cmp_consistent cmp_result_desc l.
Proof.
  apply cmp_result_desc_consistent.
Qed.

Lemma cmp_result_desc_total_order_witness :
  Forall (fun r => is_nan (rating r) = false)
    (scan load_movies_hardcoded (str "war")) /\
  cmp_consistent cmp_result_desc (scan load_movies_hardcoded (str "war")).
Proof.
  assert (H : Forall (fun r => is_nan (rating r) = false)
                (scan load_movies_hardcoded (str "war")))
    by (vm_compute; repeat constructor).
  split; [exact H|].
  apply (cmp_result_desc_total_order (scan load_movies_hardcoded (str "war"))).
  exact H.
Defined.

(** X8.  A NaN rating ties with every rating, so an array that holds one
    beside two entries of different ratings breaks the requirement of
    [qsort]: the comparison function is not transitive on it. *)
Theorem nan_rating_breaks_order (l : list ResultItem) (n a b : ResultItem) :
  In n l -> In a l -> In b l ->
  is_nan (rating n) = true ->
  SFltb (rating a) (rating b) = true ->
  (forall r, cmp_result_desc n r = 0 /\ cmp_result_desc r n = 0) /\
  ~ cmp_consistent cmp_result_desc l.
Proof.
  intros Hn Ha Hb Hnan Hlt.
  assert (Htie : forall r, cmp_result_desc n r = 0 /\ cmp_result_desc r n = 0).
  { intros r. unfold cmp_result_desc.
    destruct (rating n); try discriminate.
    destruct (rating r); split; reflexivity. }
  split; [exact Htie|].
  intros [_ Htrans].
  specialize (Htrans a n b Ha Hn Hb).
  destruct (Htie a) as [_ Han]. destruct (Htie b) as [Hnb _].
  rewrite Han, Hnb in Htrans.
  assert (Hab : cmp_result_desc a b = 1)
    by (unfold cmp_result_desc; now rewrite Hlt).
  rewrite Hab in Htrans. lia.
Qed.

Lemma nan_rating_breaks_order_witness :
  In (mkResultItem 1 S754_nan)
    [mkResultItem 0 (f32 71 0); mkResultItem 1 S754_nan;
     mkResultItem 2 (f32 86 0)] /\
  In (mkResultItem 0 (f32 71 0))
    [mkResultItem 0 (f32 71 0); mkResultItem 1 S754_nan;
     mkResultItem 2 (f32 86 0)] /\
  In (mkResultItem 2 (f32 86 0))
    [mkResultItem 0 (f32 71 0); mkResultItem 1 S754_nan;
     mkResultItem 2 (f32 86 0)] /\
  is_nan (rating (mkResultItem 1 S754_nan)) = true /\
  SFltb (rating (mkResultItem 0 (f32 71 0))) (rating (mkResultItem 2 (f32 86 0)))
  = true /\
  (forall r,
     cmp_result_desc (mkResultItem 1 S754_nan) r = 0 /\
     cmp_result_desc r (mkResultItem 1 S754_nan) = 0) /\
  ~ cmp_consistent cmp_result_desc
      [mkResultItem 0 (f32 71 0); mkResultItem 1 S754_nan;
       mkResultItem 2 (f32 86 0)].
Proof.
  assert (H1 : In (mkResultItem 1 S754_nan)
                 [mkResultItem 0 (f32 71 0); mkResultItem 1 S754_nan;
                  mkResultItem 2 (f32 86 0)]) by (simpl; auto).
  assert (H2 : In (mkResultItem 0 (f32 71 0))
                 [mkResultItem 0 (f32 71 0); mkResultItem 1 S754_nan;
                  mkResultItem 2 (f32 86 0)]) by (simpl; auto).
  assert (H3 : In (mkResultItem 2 (f32 86 0))
                 [mkResultItem 0 (f32 71 0); mkResultItem 1 S754_nan;
                  mkResultItem 2 (f32 86 0)]) by (simpl; auto).
  split; [exact H1|]. split; [exact H2|]. split; [exact H3|].
  split; [reflexivity|]. split; [reflexivity|].
  exact (nan_rating_breaks_order _ _ _ _ H1 H2 H3 eq_refl eq_refl).
Defined.

(** *** The ranking without ties *)

Lemma no_ties_consistent (l : list ResultItem) :
  no_ties l -> cmp_consistent cmp_result_desc l.
Proof.
  intros Hnt. split.
  - intros a b _ _.
    destruct (cmp_result_desc_laws a b) as (_ & _ & _ & E & _).
    rewrite E. apply Z.sgn_opp.
  - intros a b c Ha Hb Hc Hab Hbc.
    assert (Hstrict : forall x y, In x l -> In y l -> x <> y ->
              cmp_result_desc x y <= 0 ->
              SFltb (rating y) (rating x) = true).
    { intros x y Hx Hy Hne Hle.
      pose proof (Hnt x y Hx Hy Hne) as Hnz.
      destruct (cmp_result_desc_laws x y) as (_ & H2 & H3 & _).
      apply H2. lia. }
    assert (Hdec : forall x y : ResultItem, x = y \/ x <> y).
    { intros [i x] [j y].
      destruct (Z.eq_dec i j) as [->|Hij]; [|right; congruence].
      assert (Hf : x = y \/ x <> y).
      { destruct x as [[]|[]| |[] mx ex], y as [[]|[]| |[] my ey];
          try (right; discriminate); try (left; reflexivity);
          destruct (Pos.eq_dec mx my) as [->|Hm];
          try (right; congruence);
          destruct (Z.eq_dec ex ey) as [->|He];
          try (right; congruence); left; reflexivity. }
      destruct Hf as [->|Hf]; [now left | right; congruence]. }
    destruct (Hdec a b) as [->|Hnab]; [exact Hbc|].
    destruct (Hdec b c) as [->|Hnbc]; [exact Hab|].
    destruct (Hdec a c) as [->|Hnac].
    { destruct (cmp_result_desc_laws c c) as (_ & _ & _ & _ & E & _).
      rewrite E. lia. }
    pose proof (Hstrict a b Ha Hb Hnab Hab) as Hba.
    pose proof (Hstrict b c Hb Hc Hnbc Hbc) as Hcb.
    destruct (SFltb_not_nan _ _ Hba) as [Hb' Ha'].
    destruct (SFltb_not_nan _ _ Hcb) as [Hc' _].
    apply cmp_result_desc_le; [assumption | assumption |].
    apply (lex_ge_trans _ (float_key (rating b))).
    + apply lex_lt_asym. now apply SFltb_key.
    + apply lex_lt_asym. now apply SFltb_key.
Qed.

(** In an array in ascending order of a consistent comparison the first
    entry is below all others. *)
Lemma sorted_head_least (l : list ResultItem) :
  forall x,
    cmp_consistent cmp_result_desc (x :: l) ->
    Sorted (fun a b => cmp_result_desc a b <= 0) (x :: l) ->
    forall y, In y l -> cmp_result_desc x y <= 0.
Proof.
  induction l as [|b l IH]; intros x Hc Hs y Hy; [contradiction|].
  inversion Hs as [|? ? Hs' Hhd]; subst.
  inversion Hhd as [|? ? Hxb]; subst.
  destruct Hy as [->|Hy]; [exact Hxb|].
  destruct Hc as [Hanti Htr].
  apply (Htr x b y); simpl; auto.
  apply IH; [|exact Hs'|exact Hy].
  split.
  - intros u v Hu Hv. apply Hanti; now right.
  - intros u v w Hu Hv Hw. apply Htr; now right.
Qed.

(** Two arrangements of the same entries, both in ascending order of a
    comparison without ties, are the same. *)
Lemma sorted_perm_unique (l1 : list ResultItem) :
  forall l2,
    Permutation l1 l2 ->
    no_ties l1 ->
    cmp_consistent cmp_result_desc l1 ->
    NoDup l1 ->
    Sorted (fun a b => cmp_result_desc a b <= 0) l1 ->
    Sorted (fun a b => cmp_result_desc a b <= 0) l2 ->
    l1 = l2.
Proof.
  induction l1 as [|a l1 IH]; intros l2 Hp Hnt Hc Hnd Hs1 Hs2.
  - now apply Permutation_nil in Hp.
  - destruct l2 as [|b l2];
      [apply Permutation_sym, Permutation_nil in Hp; discriminate|].
    assert (Hc2 : cmp_consistent cmp_result_desc (b :: l2)).
    { assert (Hback : forall x, In x (b :: l2) -> In x (a :: l1))
        by (intros x; apply Permutation_in, Permutation_sym, Hp).
      destruct Hc as [H1 H2]. split.
      - intros x y Hx Hy. apply H1; now apply Hback.
      - intros x y z Hx Hy Hz. apply H2; now apply Hback. }
    assert (Eab : a = b).
    { destruct (Permutation_in a Hp (or_introl eq_refl)) as [E|Hin2];
        [now symmetry|].
      destruct (Permutation_in b (Permutation_sym Hp) (or_introl eq_refl))
        as [E|Hin1]; [exact E|].
      pose proof (sorted_head_least l2 b Hc2 Hs2 a Hin2) as Hba.
      pose proof (sorted_head_least l1 a Hc Hs1 b Hin1) as Hab.
      assert (Hne : a <> b).
      { intros ->. inversion Hnd; subst. contradiction. }
      pose proof (Hnt a b (or_introl eq_refl) (or_intror Hin1) Hne) as Hnz.
      destruct (cmp_result_desc_laws a b) as (_ & _ & _ & E & _).
      lia. }
    subst b. f_equal.
    apply IH.
    + now apply Permutation_cons_inv in Hp.
    + intros x y Hx Hy. apply Hnt; now right.
    + destruct Hc as [H1 H2]. split.
      * intros x y Hx Hy. apply H1; now right.
      * intros x y z Hx Hy Hz. apply H2; now right.
    + now inversion Hnd.
    + now inversion Hs1.
    + now inversion Hs2.
Qed.

(** X9.  When no two matching records tie on their rating, the ranked
    result list and the report do not depend on the [qsort] at hand:
    every [qsort] that keeps the contract of C returns the same array. *)
Theorem ranking_unique_without_ties (qsort1 qsort2 : qsort_fn)
    (g_movies : list Movie) (kw : cstr) :
  qsort_contract qsort1 ->
  qsort_contract qsort2 ->
  no_ties (scan g_movies kw) ->
  search_results qsort1 g_movies kw = search_results qsort2 g_movies kw /\
  search_report qsort1 g_movies kw = search_report qsort2 g_movies kw.
Proof.
  intros Hq1 Hq2 Hnt.
  pose proof (no_ties_consistent _ Hnt) as Hc.
  destruct (Hq1 cmp_result_desc _ Hc) as [Hp1 Hs1].
  destruct (Hq2 cmp_result_desc _ Hc) as [Hp2 Hs2].
  assert (E : search_results qsort1 g_movies kw
              = search_results qsort2 g_movies kw).
  { unfold search_results.
    assert (Hback : forall x,
              In x (qsort1 cmp_result_desc (scan g_movies kw)) ->
              In x (scan g_movies kw))
      by (intros x; apply Permutation_in, Permutation_sym, Hp1).
    apply sorted_perm_unique.
    - eapply perm_trans; [apply Permutation_sym, Hp1 | exact Hp2].
    - intros a b Ha Hb. apply Hnt; now apply Hback.
    - destruct Hc as [H1 H2]. split.
      + intros x y Hx Hy. apply H1; now apply Hback.
      + intros x y z Hx Hy Hz. apply H2; now apply Hback.
    - eapply Permutation_NoDup; [exact Hp1|].
      apply (NoDup_map_inv idx), scan_NoDup.
    - exact Hs1.
    - exact Hs2. }
  split; [exact E|].
  unfold search_report. unfold search_results in E. now rewrite E.
Qed.

Lemma insertion_sort_rev_contract : qsort_contract insertion_sort_rev.
Proof.
  intros cmp l [Hanti Htr]. unfold insertion_sort_rev. split.
  - eapply perm_trans; [apply Permutation_rev | apply insertion_sort_perm].
  - apply insertion_sort_Sorted. split.
    + intros a b Ha Hb. apply Hanti; now apply in_rev.
    + intros a b c Ha Hb Hc. apply Htr; now apply in_rev.
Qed.

Lemma ranking_unique_without_ties_witness :
  qsort_contract insertion_sort /\
  qsort_contract insertion_sort_rev /\
  no_ties (scan load_movies_hardcoded (str "war")) /\
  search_results insertion_sort load_movies_hardcoded (str "war")
  = search_results insertion_sort_rev load_movies_hardcoded (str "war") /\
  search_report insertion_sort load_movies_hardcoded (str "war")
  = search_report insertion_sort_rev load_movies_hardcoded (str "war").
Proof.
  assert (Hnt : no_ties (scan load_movies_hardcoded (str "war"))).
  { intros a b Ha Hb Hne.
    vm_compute in Ha, Hb.
    destruct Ha as [<-|[<-|[]]], Hb as [<-|[<-|[]]];
      try congruence; vm_compute; discriminate. }
  split; [exact insertion_sort_contract|].
  split; [exact insertion_sort_rev_contract|].
  split; [exact Hnt|].
  exact (ranking_unique_without_ties insertion_sort insertion_sort_rev
           load_movies_hardcoded (str "war")
           insertion_sort_contract insertion_sort_rev_contract Hnt).
Defined.

(** With a tie the contract of [qsort] leaves the order open: the two
    insertion sorts rank two records of equal rating differently. *)
Example tie_order_unspecified :
  search_results insertion_sort
    [mkMovie (str "A") [] [] (f32 80 0) (str "x");
     mkMovie (str "B") [] [] (f32 80 0) (str "x")] (str "x")
  <> search_results insertion_sort_rev
       [mkMovie (str "A") [] [] (f32 80 0) (str "x");
        mkMovie (str "B") [] [] (f32 80 0) (str "x")] (str "x").
Proof. vm_compute. discriminate. Qed.

(** ** The scan, in terms of the records *)

Lemma all_matches_from_increasing (kw : cstr) (movies : list Movie) :
  forall i, StronglySorted Z.lt (map idx (all_matches_from i movies kw)).
Proof.
  induction movies as [|m movies IH]; intros i; simpl.
  - constructor.
  - destruct (matches m kw); [|apply IH].
    simpl. constructor; [apply IH|].
    apply Forall_map.
    eapply Forall_impl; [|apply (all_matches_from_lower kw movies (i + 1))].
    simpl. intros; lia.
Qed.

Lemma all_matches_from_records (kw : cstr) (movies : list Movie) :
  forall i,
    map (fun r => nth (Z.to_nat (idx r - i)) movies Movie_zero)
      (all_matches_from i movies kw)
    = filter (fun m => matches m kw) movies.
Proof.
  induction movies as [|m movies IH]; intros i;
    cbn [all_matches_from filter].
  - reflexivity.
  - assert (Hrec :
      map (fun r => nth (Z.to_nat (idx r - i)) (m :: movies) Movie_zero)
        (all_matches_from (i + 1) movies kw)
      = filter (fun m => matches m kw) movies).
    { rewrite <- (IH (i + 1)). apply map_ext_in. intros r Hr.
      pose proof (all_matches_from_lower kw movies (i + 1)) as Hlow.
      rewrite Forall_forall in Hlow. specialize (Hlow r Hr).
      replace (Z.to_nat (idx r - i)) with (S (Z.to_nat (idx r - (i + 1))))
        by lia.
      reflexivity. }
    destruct (matches m kw); [|exact Hrec].
    cbn [map idx]. rewrite Hrec, Z.sub_diag. reflexivity.
Qed.

Lemma StronglySorted_firstn {A : Type} (R : A -> A -> Prop) (n : nat)
    (l : list A) :
  StronglySorted R l -> StronglySorted R (firstn n l).
Proof.
  revert n. induction l as [|a l IH]; intros [|n] H; simpl;
    try constructor.
  - apply IH. now inversion H.
  - inversion H as [|? ? _ Hall]; subst.
    apply Forall_forall. intros x Hx.
    rewrite Forall_forall in Hall. apply Hall.
    now apply In_firstn in Hx.
Qed.

(** X10.  Before the sort the result array lists the matches in catalog
    order: its indices increase strictly, and the records they point to
    are the first [MAX_RESULTS] records of the catalog whose description
    matches, in their order. *)
Theorem scan_in_catalog_order (g_movies : list Movie) (kw : cstr) :
  StronglySorted Z.lt (map idx (scan g_movies kw)) /\
  map (fun r => movie_at g_movies (idx r)) (scan g_movies kw)
  = firstn (Z.to_nat MAX_RESULTS) (filter (fun m => matches m kw) g_movies).
Proof.
  rewrite scan_all_matches. unfold all_matches. split.
  - rewrite <- firstn_map.
    apply StronglySorted_firstn, all_matches_from_increasing.
  - rewrite <- firstn_map. f_equal.
    rewrite <- (all_matches_from_records kw g_movies 0).
    apply map_ext. intros r. unfold movie_at. now rewrite Z.sub_0_r.
Qed.

(** ** The print mutex, further *)

(** X11.  In every state of every run at most one worker is between a
    lock and the unlock that follows; a worker about to print or to unlock
    owns the print mutex, and a worker about to lock it, to wait on the
    semaphore, to post it or to sleep does not. *)
Theorem print_mutex_exclusion (qsort : qsort_fn) (g_movies : list Movie)
    (K : nat) (args : list WorkerArgs) (s : state) :
  reachable (init_state qsort g_movies K args) s ->
  (forall t1 t2 th1 th2,
     nth_error (threads s) t1 = Some th1 ->
     nth_error (threads s) t2 = Some th2 ->
     in_section th1 = true -> in_section th2 = true -> t1 = t2) /\
  (forall t th i,
     nth_error (threads s) t = Some th ->
     nth_error (code th) (pc th) = Some i ->
     match i with
     | Print _ | Unlock => mutex s = Some t
     | Lock | SemWait | SemPost | Usleep _ => mutex s <> Some t
     end).
Proof.
  intros Hr. split.
  - intros t1 t2 th1 th2 H1 H2 S1 S2.
    apply (mutex_owner qsort g_movies K args s Hr t1 th1 H1) in S1.
    apply (mutex_owner qsort g_movies K args s Hr t2 th2 H2) in S2.
    congruence.
  - intros t th i Hth Hi.
    destruct (reachable_worker qsort g_movies K args s t th Hr Hth)
      as (wa & _ & Hc).
    pose proof (search_worker_well_locked qsort g_movies wa) as Hw.
    rewrite <- Hc in Hw.
    pose proof (well_locked_nth _ _ _ _ Hw Hi) as Hk.
    fold (in_section th) in Hk.
    pose proof (mutex_owner qsort g_movies K args s Hr t th Hth) as Hown.
    destruct i; try (now apply Hown);
      intros E; apply Hown in E; congruence.
Qed.

Lemma print_mutex_exclusion_witness :
  reachable (main_init insertion_sort) (sweeps 40 (main_init insertion_sort)) /\
  (forall t1 t2 th1 th2,
     nth_error (threads (sweeps 40 (main_init insertion_sort))) t1 = Some th1 ->
     nth_error (threads (sweeps 40 (main_init insertion_sort))) t2 = Some th2 ->
     in_section th1 = true -> in_section th2 = true -> t1 = t2) /\
  (forall t th i,
     nth_error (threads (sweeps 40 (main_init insertion_sort))) t = Some th ->
     nth_error (code th) (pc th) = Some i ->
     match i with
     | Print _ | Unlock => mutex (sweeps 40 (main_init insertion_sort)) = Some t
     | Lock | SemWait | SemPost | Usleep _ =>
         mutex (sweeps 40 (main_init insertion_sort)) <> Some t
     end).
Proof.
  assert (Hr : reachable (main_init insertion_sort)
                 (sweeps 40 (main_init insertion_sort)))
    by apply sweeps_reachable, reachable_refl.
  split; [exact Hr|].
  exact (print_mutex_exclusion insertion_sort load_movies_hardcoded 5
           main_args (sweeps 40 (main_init insertion_sort)) Hr).
Defined.

(** ** What a worker prints *)

Lemma prints_app (c1 c2 : list instr) :
  prints (c1 ++ c2) = prints c1 ++ prints c2.
Proof. unfold prints. apply flat_map_app. Qed.

Lemma prints_map_Print (items : list out_item) :
  prints (map Print items) = items.
Proof.
  induction items as [|it items IH]; simpl; [reflexivity | now f_equal].
Qed.

Lemma search_worker_prints (qsort : qsort_fn) (g_movies : list Movie)
    (wa : WorkerArgs) :
  prints (search_worker qsort g_movies wa) = worker_lines qsort g_movies wa.
Proof.
  unfold search_worker, search_movies_and_print, worker_lines.
  rewrite !prints_app, prints_map_Print.
  cbn [worker_prologue worker_epilogue prints flat_map app].
  now rewrite <- app_assoc.
Qed.

Lemma output_of_app (t : nat) (o1 o2 : list (nat * out_item)) :
  output_of t (o1 ++ o2) = output_of t o1 ++ output_of t o2.
Proof. unfold output_of. now rewrite filter_app, map_app. Qed.

(** What a thread has written is what the calls it has made print. *)
Lemma output_of_thread (s0 s : state) :
  out s0 = [] ->
  Forall (fun th => pc th = O) (threads s0) ->
  reachable s0 s ->
  forall t th,
    nth_error (threads s) t = Some th ->
    output_of t (out s) = prints (firstn (pc th) (code th)).
Proof.
  intros Ho H0 Hr. pattern s. revert s Hr. apply reachable_invariant.
  - intros t th Hth. rewrite Ho.
    rewrite Forall_forall in H0.
    rewrite (H0 th (nth_error_In _ _ Hth)). reflexivity.
  - intros s s' _ Hinv [t0 Hstep] t th Hth.
    apply step_thread_inv in Hstep as (th0 & i & Hth0 & Hi & Hths & Heff).
    rewrite Hths in Hth.
    assert (Hout : out s' = out s ++ map (pair t0) (prints [i])).
    { destruct i; simpl; rewrite ?app_nil_r; apply Heff. }
    rewrite Hout, output_of_app.
    destruct (Nat.eq_dec t0 t) as [<-|Hneq].
    + rewrite (nth_error_upd_eq _ _ _ _ Hth0) in Hth. injection Hth as <-.
      cbn [code pc].
      rewrite (firstn_nth_error _ _ _ Hi), prints_app, (Hinv t0 th0 Hth0).
      f_equal. unfold output_of.
      destruct i; simpl; rewrite ?Nat.eqb_refl; reflexivity.
    + rewrite nth_error_upd_neq in Hth by exact Hneq.
      rewrite (Hinv t th Hth).
      assert (E : output_of t (map (pair t0) (prints [i])) = []).
      { unfold output_of.
        destruct i; simpl; try reflexivity.
        apply Nat.eqb_neq in Hneq. now rewrite Hneq. }
      now rewrite E, app_nil_r.
Qed.

(** X12.  In every state of every run, what a worker has written to the
    output is a beginning of its lines in program order: the waiting
    line, the acquired line, its report block, the finished line.  Once
    it has returned it has written exactly these, each once. *)
Theorem worker_output_in_order (qsort : qsort_fn) (g_movies : list Movie)
    (K : nat) (args : list WorkerArgs) (s : state) (t : nat) (th : thread)
    (wa : WorkerArgs) :
  reachable (init_state qsort g_movies K args) s ->
  nth_error (threads s) t = Some th ->
  nth_error args t = Some wa ->
  (exists rest,
     worker_lines qsort g_movies wa = output_of t (out s) ++ rest) /\
  (returned th = true ->
   output_of t (out s) = worker_lines qsort g_movies wa).
Proof.
  intros Hr Hth Hwa.
  destruct (reachable_worker qsort g_movies K args s t th Hr Hth)
    as (wa' & Hwa' & Hc).
  assert (wa' = wa) by congruence. subst wa'.
  assert (Ho : output_of t (out s) = prints (firstn (pc th) (code th))).
  { apply (output_of_thread (init_state qsort g_movies K args) s);
      [reflexivity | | exact Hr | exact Hth].
    simpl. apply Forall_forall. intros x Hx.
    apply in_map_iff in Hx as (w & <- & _). reflexivity. }
  rewrite Ho. split.
  - exists (prints (skipn (pc th) (code th))).
    rewrite <- prints_app, firstn_skipn, Hc.
    symmetry. apply search_worker_prints.
  - intros Hret. unfold returned in Hret. apply Nat.leb_le in Hret.
    rewrite firstn_all2 by exact Hret.
    rewrite Hc. apply search_worker_prints.
Qed.

Lemma worker_output_in_order_witness :
  reachable (main_init insertion_sort) (sweeps 40 (main_init insertion_sort)) /\
  nth_error (threads (sweeps 40 (main_init insertion_sort))) 1
  = Some (mkThread (search_worker insertion_sort load_movies_hardcoded
                      (mkWorkerArgs (str "magic") 2)) 12) /\
  nth_error main_args 1 = Some (mkWorkerArgs (str "magic") 2) /\
  (exists rest,
     worker_lines insertion_sort load_movies_hardcoded
       (mkWorkerArgs (str "magic") 2)
     = output_of 1 (out (sweeps 40 (main_init insertion_sort))) ++ rest) /\
  (returned (mkThread (search_worker insertion_sort load_movies_hardcoded
                         (mkWorkerArgs (str "magic") 2)) 12) = true ->
   output_of 1 (out (sweeps 40 (main_init insertion_sort)))
   = worker_lines insertion_sort load_movies_hardcoded
       (mkWorkerArgs (str "magic") 2)).
Proof.
  assert (Hr : reachable (main_init insertion_sort)
                 (sweeps 40 (main_init insertion_sort)))
    by apply sweeps_reachable, reachable_refl.
  assert (Hth : nth_error (threads (sweeps 40 (main_init insertion_sort))) 1
                = Some (mkThread
                          (search_worker insertion_sort load_movies_hardcoded
                             (mkWorkerArgs (str "magic") 2)) 12))
    by (vm_compute; reflexivity).
  assert (Hwa : nth_error main_args 1 = Some (mkWorkerArgs (str "magic") 2))
    by reflexivity.
  split; [exact Hr|]. split; [exact Hth|]. split; [exact Hwa|].
  exact (worker_output_in_order insertion_sort load_movies_hardcoded 5
           main_args (sweeps 40 (main_init insertion_sort)) 1 _ _ Hr Hth Hwa).
Defined.

(** ** The admission bound, as the output shows it *)

Section LogLines.

Variable p : out_item -> bool.

Lemma printed_by_next (c : list instr) (n : nat) (i : instr) :
  nth_error c n = Some i ->
  printed_by p (mkThread c (S n))
  = (printed_by p (mkThread c n) + List.length (filter p (prints [i])))%nat.
Proof.
  intros Hi. unfold printed_by. cbn [code pc].
  now rewrite (firstn_nth_error _ _ _ Hi), prints_app, filter_app, length_app.
Qed.

(** The lines of a kind in the output are those the threads have printed. *)
Lemma count_lines_threads (s0 s : state) :
  out s0 = [] ->
  Forall (fun th => pc th = O) (threads s0) ->
  reachable s0 s ->
  count_lines p (out s) = list_sum (map (printed_by p) (threads s)).
Proof.
  intros Ho H0 Hr. induction Hr as [|s s' _ IH [t Hstep]].
  - rewrite Ho. unfold count_lines. simpl.
    induction (threads s0) as [|th l IHl]; [reflexivity|].
    inversion H0 as [|? ? Hpc Hl]; subst. simpl.
    rewrite <- (IHl Hl). unfold printed_by. now rewrite Hpc.
  - apply step_thread_inv in Hstep as (th & i & Hth & Hi & Hths & Heff).
    pose proof (list_sum_upd (printed_by p) (threads s) t
                  (mkThread (code th) (S (pc th))) th Hth) as Hsum.
    rewrite (printed_by_next _ _ _ Hi) in Hsum.
    change (printed_by p {| code := code th; pc := pc th |})
      with (printed_by p th) in Hsum.
    assert (Hout : count_lines p (out s')
                   = (count_lines p (out s)
                      + List.length (filter p (prints [i])))%nat).
    { unfold count_lines.
      destruct i; simpl;
        try (replace (out s') with (out s) by (symmetry; apply Heff); lia).
      destruct Heff as (_ & _ & ->).
      rewrite map_app, filter_app, length_app. reflexivity. }
    rewrite Hths. lia.
Qed.

(** The number of lines of a kind among the first [n] calls of a list
    with one call that prints such a line. *)
Lemma printed_by_single (pre post : list instr) (it : out_item) (n : nat) :
  filter p (prints pre) = [] -> filter p (prints post) = [] ->
  p it = true ->
  printed_by p (mkThread (pre ++ Print it :: post) n)
  = if (List.length pre <? n)%nat then 1%nat else 0%nat.
Proof.
  intros Hpre Hpost Hit. unfold printed_by. cbn [code pc].
  rewrite firstn_app, prints_app, filter_app, length_app.
  assert (Hsub : forall l k, filter p (prints l) = [] ->
                   filter p (prints (firstn k l)) = []).
  { intros l k Hl. rewrite <- (firstn_skipn k l), prints_app, filter_app in Hl.
    now apply app_eq_nil in Hl. }
  rewrite (Hsub pre n Hpre). cbn [List.length Nat.add].
  destruct (Nat.ltb_spec (List.length pre) n) as [Hlt|Hge].
  - destruct (n - List.length pre)%nat as [|k] eqn:E; [lia|].
    cbn [firstn]. change (Print it :: firstn k post)
      with ([Print it] ++ firstn k post).
    rewrite prints_app, filter_app, (Hsub post k Hpost), app_nil_r.
    simpl. now rewrite Hit.
  - replace (n - List.length pre)%nat with O by lia. reflexivity.
Qed.

End LogLines.

Section AcquiredLines.

Variable qsort : qsort_fn.
Variable g_movies : list Movie.

(** No line of a report is a log line. *)
Lemma report_no_log_line (kw : cstr) :
  filter is_acquired_line (search_report qsort g_movies kw) = [] /\
  filter is_finished_line (search_report qsort g_movies kw) = [].
Proof.
  unfold search_report, report_block.
  assert (He : forall (q : out_item -> bool) results l,
            (forall a, q (Printf fmt_entry a) = false) ->
            filter q (map (fun i => print_entry g_movies results (Z.of_nat i)) l)
            = []).
  { intros q results l Hq. induction l as [|i l IH]; simpl; [reflexivity|].
    unfold print_entry at 1. now rewrite Hq. }
  split; rewrite !filter_app;
    destruct (Z.of_nat (List.length (scan g_movies kw)) =? 0);
    rewrite ?He by reflexivity; reflexivity.
Qed.

Lemma worker_acquired_printed (wa : WorkerArgs) (n : nat) :
  printed_by is_acquired_line (mkThread (search_worker qsort g_movies wa) n)
  = if (5 <? n)%nat then 1%nat else 0%nat.
Proof.
  change (search_worker qsort g_movies wa)
    with ([Lock; Print (log_waiting wa); Unlock; SemWait; Lock]
          ++ Print (log_acquired wa)
             :: [Unlock; Usleep 200000]
                ++ search_movies_and_print qsort g_movies (keyword wa)
                ++ worker_epilogue wa).
  rewrite printed_by_single; try reflexivity.
  unfold search_movies_and_print.
  rewrite !prints_app, prints_map_Print, !filter_app.
  destruct (report_no_log_line (keyword wa)) as [-> _]. reflexivity.
Qed.

Lemma worker_finished_printed (wa : WorkerArgs) (n : nat) :
  printed_by is_finished_line (mkThread (search_worker qsort g_movies wa) n)
  = if (11 + List.length (search_report qsort g_movies (keyword wa)) <? n)%nat
    then 1%nat else 0%nat.
Proof.
  pose (pre := worker_prologue wa
               ++ search_movies_and_print qsort g_movies (keyword wa)
               ++ [Lock]).
  assert (E : search_worker qsort g_movies wa
              = pre ++ Print (log_finished wa) :: [Unlock; SemPost]).
  { unfold pre, search_worker, worker_epilogue.
    rewrite <- !app_assoc. reflexivity. }
  assert (Hlen : List.length pre
                 = (11 + List.length (search_report qsort g_movies (keyword wa)))%nat).
  { unfold pre, search_movies_and_print.
    rewrite !length_app, length_map. simpl. lia. }
  assert (Hpre : filter is_finished_line (prints pre) = []).
  { unfold pre, search_movies_and_print.
    rewrite !prints_app, prints_map_Print, !filter_app.
    destruct (report_no_log_line (keyword wa)) as [_ ->]. reflexivity. }
  rewrite E. clearbody pre.
  rewrite printed_by_single by (reflexivity || exact Hpre).
  now rewrite Hlen.
Qed.

Variable K : nat.
Variable args : list WorkerArgs.

Lemma init_pcs :
  Forall (fun th => pc th = O) (threads (init_state qsort g_movies K args)).
Proof.
  simpl. apply Forall_forall. intros x Hx.
  apply in_map_iff in Hx as (w & <- & _). reflexivity.
Qed.

Lemma sum_le_with_holders (A F : thread -> nat) (l : list thread) :
  (forall th, In th l ->
     (A th <= F th + (if holds_permit th then 1 else 0))%nat) ->
  (list_sum (map A l)
   <= list_sum (map F l) + List.length (filter holds_permit l))%nat.
Proof.
  induction l as [|th l IH]; intros H; simpl; [lia|].
  specialize (IH (fun x Hx => H x (or_intror Hx))).
  specialize (H th (or_introl eq_refl)).
  destruct (holds_permit th); simpl in *; lia.
Qed.

Lemma sum_le_pointwise (A F : thread -> nat) (l : list thread) :
  (forall th, In th l -> (A th <= F th)%nat) ->
  (list_sum (map A l) <= list_sum (map F l))%nat.
Proof.
  induction l as [|th l IH]; intros H; simpl; [lia|].
  specialize (IH (fun x Hx => H x (or_intror Hx))).
  specialize (H th (or_introl eq_refl)). lia.
Qed.

Lemma acquired_finished_bound (s : state) :
  reachable (init_state qsort g_movies K args) s ->
  (count_lines is_finished_line (out s)
   <= count_lines is_acquired_line (out s))%nat /\
  (count_lines is_acquired_line (out s)
   <= count_lines is_finished_line (out s) + K)%nat.
Proof.
  intros Hr.
  rewrite !(count_lines_threads _ (init_state qsort g_movies K args) s
              eq_refl init_pcs Hr).
  pose proof (permit_accounting qsort g_movies K args s Hr) as Hacc.
  unfold permits_held in Hacc.
  split.
  - apply sum_le_pointwise. intros th Hin.
    destruct (reachable_thread_worker qsort g_movies K args s th Hr Hin)
      as [wa ->].
    rewrite worker_acquired_printed, worker_finished_printed.
    destruct (Nat.ltb_spec 5 (pc th)),
      (Nat.ltb_spec
         (11 + List.length (search_report qsort g_movies (keyword wa)))
         (pc th)); lia.
  - pose proof (sum_le_with_holders (printed_by is_acquired_line)
                  (printed_by is_finished_line) (threads s)) as Hle.
    assert (Hpt : forall th, In th (threads s) ->
              (printed_by is_acquired_line th
               <= printed_by is_finished_line th
                  + (if holds_permit th then 1 else 0))%nat).
    { intros th Hin.
      destruct (reachable_thread_worker qsort g_movies K args s th Hr Hin)
        as [wa ->].
      rewrite worker_acquired_printed, worker_finished_printed,
        worker_holds_permit, search_worker_length.
      destruct (Nat.ltb_spec 5 (pc th)),
        (Nat.ltb_spec
           (11 + List.length (search_report qsort g_movies (keyword wa)))
           (pc th)),
        (Nat.leb_spec 4 (pc th)),
        (Nat.ltb_spec (pc th)
           (14 + List.length (search_report qsort g_movies (keyword wa))));
        simpl; lia. }
    specialize (Hle Hpt). lia.
Qed.

End AcquiredLines.

(** X13.  In every state of every run the output holds at least as many
    "Acquired DB slot" lines as "Finished search" lines, and at most [K]
    more: the searches the log shows as begun and not finished never
    exceed the capacity. *)
Theorem acquired_lines_bounded (qsort : qsort_fn) (g_movies : list Movie)
    (K : nat) (args : list WorkerArgs) (s : state) :
  reachable (init_state qsort g_movies K args) s ->
  (count_lines is_finished_line (out s)
   <= count_lines is_acquired_line (out s))%nat /\
  (count_lines is_acquired_line (out s)
   <= count_lines is_finished_line (out s) + K)%nat.
Proof.
  apply acquired_finished_bound.
Qed.

Lemma acquired_lines_bounded_witness :
  reachable (main_init insertion_sort) (sweeps 40 (main_init insertion_sort)) /\
  (count_lines is_finished_line (out (sweeps 40 (main_init insertion_sort)))
   <= count_lines is_acquired_line (out (sweeps 40 (main_init insertion_sort))))%nat /\
  (count_lines is_acquired_line (out (sweeps 40 (main_init insertion_sort)))
   <= count_lines is_finished_line (out (sweeps 40 (main_init insertion_sort)))
      + 5)%nat.
Proof.
  assert (Hr : reachable (main_init insertion_sort)
                 (sweeps 40 (main_init insertion_sort)))
    by apply sweeps_reachable, reachable_refl.
  split; [exact Hr|].
  exact (acquired_lines_bounded insertion_sort load_movies_hardcoded 5
           main_args (sweeps 40 (main_init insertion_sort)) Hr).
Defined.

(** In that state of the run of [main] the log shows five searches
    begun and none finished. *)
Example main_run_log_counts :
  count_lines is_acquired_line (out (sweeps 40 (main_init insertion_sort)))
  = 5%nat /\
  count_lines is_finished_line (out (sweeps 40 (main_init insertion_sort)))
  = 0%nat.
Proof. vm_compute. split; reflexivity. Qed.

(** ** Runs come to an end *)

(** X14.  With a capacity above 0 a run cannot get stuck half way: in a
    state where no thread can make its next call, every worker has
    returned.  No worker waits for ever for a permit or for the print
    mutex. *)
Theorem no_deadlock (qsort : qsort_fn) (g_movies : list Movie) (K : nat)
    (args : list WorkerArgs) (s : state) :
  reachable (init_state qsort g_movies K args) s ->
  (0 < K)%nat ->
  (forall s', ~ step s s') ->
  all_returned s = true.
Proof.
  intros Hr HK Hstuck.
  destruct (all_returned s) eqn:Hall; [reflexivity|].
  destruct (progress qsort g_movies K args s Hr HK Hall) as [s' Hs].
  now elim (Hstuck s').
Qed.

Lemma returned_no_step (s : state) :
  all_returned s = true -> forall s', ~ step s s'.
Proof.
  intros Hall s' [t H]. unfold step_thread in H.
  destruct (nth_error (threads s) t) as [th|] eqn:Hth; [|discriminate].
  unfold all_returned in Hall. rewrite forallb_forall in Hall.
  specialize (Hall th (nth_error_In _ _ Hth)).
  unfold returned in Hall. apply Nat.leb_le in Hall.
  apply nth_error_None in Hall. rewrite Hall in H. discriminate.
Qed.

Lemma no_deadlock_witness :
  reachable (main_init insertion_sort) (sweeps 200 (main_init insertion_sort)) /\
  (0 < 5)%nat /\
  (forall s', ~ step (sweeps 200 (main_init insertion_sort)) s') /\
  all_returned (sweeps 200 (main_init insertion_sort)) = true.
Proof.
  assert (Hr : reachable (main_init insertion_sort)
                 (sweeps 200 (main_init insertion_sort)))
    by apply sweeps_reachable, reachable_refl.
  assert (Hall : all_returned (sweeps 200 (main_init insertion_sort)) = true)
    by (vm_compute; reflexivity).
  assert (HK : (0 < 5)%nat) by lia.
  split; [exact Hr|]. split; [exact HK|].
  split; [exact (returned_no_step _ Hall)|].
  exact (no_deadlock insertion_sort load_movies_hardcoded 5 main_args
           (sweeps 200 (main_init insertion_sort)) Hr HK
           (returned_no_step _ Hall)).
Defined.

Lemma run_calls_left (sched : list nat) :
  forall s s',
    run sched s = Some s' ->
    calls_left s = (List.length sched + calls_left s')%nat.
Proof.
  induction sched as [|t sched IH]; intros s s' Hrun; simpl in Hrun.
  - now injection Hrun as <-.
  - destruct (step_thread t s) as [s1|] eqn:E; [|discriminate].
    assert (Hs : step s s1) by now exists t.
    apply step_calls_left in Hs.
    rewrite (IH s1 s' Hrun) in Hs. simpl. lia.
Qed.

Lemma init_calls_left (qsort : qsort_fn) (g_movies : list Movie) (K : nat)
    (args : list WorkerArgs) :
  calls_left (init_state qsort g_movies K args)
  = list_sum
      (map (fun wa =>
              (14 + List.length (search_report qsort g_movies (keyword wa)))%nat)
         args).
Proof.
  unfold calls_left, init_state. cbn [threads]. rewrite map_map.
  f_equal. apply map_ext. intros wa. cbn [code pc].
  rewrite search_worker_length. lia.
Qed.

Lemma calls_left_zero (s : state) :
  calls_left s = 0%nat -> all_returned s = true.
Proof.
  unfold calls_left, all_returned.
  induction (threads s) as [|th l IH]; simpl; [reflexivity|].
  intros H. apply andb_true_iff. split.
  - unfold returned. apply Nat.leb_le. lia.
  - apply IH. lia.
Qed.

(** X15.  A worker makes 14 calls and one per line of its report, and
    returns.  So every run of the workers is finite: it makes at most as
    many calls as the workers have to make in all, and a run that has
    made them all has every worker returned. *)
Theorem runs_are_bounded (qsort : qsort_fn) (g_movies : list Movie) (K : nat)
    (args : list WorkerArgs) (sched : list nat) (s : state) :
  run sched (init_state qsort g_movies K args) = Some s ->
  (List.length sched + calls_left s
   = list_sum
       (map (fun wa =>
               (14 + List.length (search_report qsort g_movies (keyword wa)))%nat)
          args))%nat /\
  (List.length sched
   = list_sum
       (map (fun wa =>
               (14 + List.length (search_report qsort g_movies (keyword wa)))%nat)
          args) ->
   all_returned s = true).
Proof.
  intros Hrun.
  pose proof (run_calls_left _ _ _ Hrun) as Hc.
  rewrite init_calls_left in Hc.
  split; [lia|].
  intros Hlen. apply calls_left_zero. lia.
Qed.

Lemma runs_are_bounded_witness :
  run (repeat 0%nat 20)
    (init_state insertion_sort load_movies_hardcoded 5
       [mkWorkerArgs (str "zebra") 1])
  = Some (fold_left try_step (repeat 0%nat 20)
            (init_state insertion_sort load_movies_hardcoded 5
               [mkWorkerArgs (str "zebra") 1])) /\
  (List.length (repeat 0%nat 20)
   + calls_left
       (fold_left try_step (repeat 0%nat 20)
          (init_state insertion_sort load_movies_hardcoded 5
             [mkWorkerArgs (str "zebra") 1]))
   = list_sum
       (map (fun wa =>
               (14 + List.length
                       (search_report insertion_sort load_movies_hardcoded
                          (keyword wa)))%nat)
          [mkWorkerArgs (str "zebra") 1]))%nat /\
  (List.length (repeat 0%nat 20)
   = list_sum
       (map (fun wa =>
               (14 + List.length
                       (search_report insertion_sort load_movies_hardcoded
                          (keyword wa)))%nat)
          [mkWorkerArgs (str "zebra") 1]) ->
   all_returned
     (fold_left try_step (repeat 0%nat 20)
        (init_state insertion_sort load_movies_hardcoded 5
           [mkWorkerArgs (str "zebra") 1]))
   = true).
Proof.
  assert (Hrun :
    run (repeat 0%nat 20)
      (init_state insertion_sort load_movies_hardcoded 5
         [mkWorkerArgs (str "zebra") 1])
    = Some (fold_left try_step (repeat 0%nat 20)
              (init_state insertion_sort load_movies_hardcoded 5
                 [mkWorkerArgs (str "zebra") 1])))
    by (vm_compute; reflexivity).
  split; [exact Hrun|].
  exact (runs_are_bounded insertion_sort load_movies_hardcoded 5
           [mkWorkerArgs (str "zebra") 1] (repeat 0%nat 20) _ Hrun).
Defined.
